(** * Account session orchestrator (src/app/logic/accounts.ts)

    A shallow embedding of the stream pipelines of [accounts.ts]: the balance
    tracker and the merged balance map, the message delivery proxy, the merged
    event log, the readiness gate of [initAccount] and the session manager.

    The RxJS operators the source chains together are written as small
    step functions over an explicit operator state (what the operator's
    subscriber object holds), fed one notification at a time. *)

From Stdlib Require Import ZArith List Bool Ascii String DecimalString Lia.
From stdpp Require Import base option list strings gmap fin_maps.

Local Open Scope string_scope.
Local Open Scope list_scope.
Local Open Scope Z_scope.

(** ** Big numbers

    [BN] is the arbitrary-precision integer of the framework: [eq] is exact
    equality, [sub] may go negative, [div] truncates toward zero and
    [toString] prints base 10 with a leading [-] for negative values. *)
Module BN.

Definition t : Type := Z.

Definition eq (a b : t) : bool := Z.eqb a b.
Definition sub (a b : t) : t := Z.sub a b.
Definition div (a b : t) : t := Z.quot a b.
Definition toString (a : t) : string := NilZero.string_of_int (Z.to_int a).

End BN.

(** ** Balance readings *)

(** A JS object used as a record with optional string fields. *)
Abbreviation DeltaRecord := (gmap string (option string)).

Record AccountBalance : Type := mkAccountBalance {
  blockNumber : Z;
  wei : BN.t;
  gotToken : BN.t;
  hsToken : BN.t
}.

Record AccountBalanceFormatted : Type := mkFormatted {
  bal : AccountBalance;
  eth : string;
  got : string;
  hs : string;
  delta : DeltaRecord
}.

(** The three keys [isBalanceChanged] folds over, in the source's order. *)
Inductive BalanceKey : Type := KGotToken | KHsToken | KWei.

Definition field (a : AccountBalance) (k : BalanceKey) : BN.t :=
  match k with
  | KGotToken => gotToken a
  | KHsToken => hsToken a
  | KWei => wei a
  end.

(** [weiToEthString w = w.div(new BN('1000000000000000000')).toString()] *)
Definition weiToEthString (w : BN.t) : string :=
  BN.toString (BN.div w 1000000000000000000).

(** [as.Wei] only retypes a big number. *)
Definition as_Wei (w : BN.t) : BN.t := w.

(** [isBalanceChanged]: the negation of "some key differs".  Used as the
    comparator of [distinctUntilChanged] it answers [true] for two readings
    the operator must treat as the same. *)
Definition isBalanceChanged (a b : AccountBalance) : bool :=
  negb (fold_left (fun (v : bool) k => v || negb (BN.eq (field a k) (field b k)))
                  [KGotToken; KHsToken; KWei] false).

(** The [map] at the end of [balance]: the reading with its three strings
    and an empty delta object. *)
Definition format (bl : AccountBalance) : AccountBalanceFormatted :=
  {| bal := bl;
     eth := weiToEthString (wei bl);
     got := BN.toString (gotToken bl);
     hs := BN.toString (hsToken bl);
     delta := ∅ |}.

(** ** Stream operators as step functions *)
Module Rx.

(** [distinctUntilChanged(compare)]: the subscriber keeps the key of the
    last value it let through; a value passes when there is no key yet or
    when [compare key value] is false, and only then replaces the key. *)
Definition distinctUntilChanged {A : Type} (compare : A -> A -> bool)
    (key : option A) (x : A) : option A * list A :=
  match key with
  | Some k => if compare k x then (key, []) else (Some x, [x])
  | None => (Some x, [x])
  end.

(** [pairwise()]: emits [(prev, x)] once it has a previous value. *)
Definition pairwise {A : Type} (prev : option A) (x : A)
    : option A * list (A * A) :=
  (Some x, match prev with Some p => [(p, x)] | None => [] end).

(** [filter(Boolean)] over a stream of possibly-undefined values. *)
Definition filterBoolean {A : Type} (x : option A) : list A :=
  match x with Some v => [v] | None => [] end.

(** Running an operator over a whole input sequence, collecting what it
    emits. *)
Fixpoint run {S A B : Type} (step : S -> A -> S * list B) (s : S) (xs : list A)
    : S * list B :=
  match xs with
  | [] => (s, [])
  | x :: xs' =>
      let '(s1, out1) := step s x in
      let '(s2, out2) := run step s1 xs' in
      (s2, out1 ++ out2)
  end.

End Rx.

(** ** The deduplicated per-account stream

    [acc.balance.filter(Boolean).distinctUntilChanged(isBalanceChanged)]:
    the comparator looks at the [AccountBalance] fields of the formatted
    readings. *)
Definition compareFormatted (a b : AccountBalanceFormatted) : bool :=
  isBalanceChanged (bal a) (bal b).

Definition dedupStep (key : option AccountBalanceFormatted) (x : option AccountBalanceFormatted)
    : option AccountBalanceFormatted * list AccountBalanceFormatted :=
  match Rx.filterBoolean x with
  | [] => (key, [])
  | v :: _ => Rx.distinctUntilChanged compareFormatted key v
  end.

(** The readings the deduplicated stream emits for a sequence delivered by
    the account's balance stream. *)
Definition deduplicated (xs : list (option AccountBalanceFormatted))
    : list AccountBalanceFormatted :=
  snd (Rx.run dedupStep None xs).


(** Some quantity differs, under exact per-quantity equality. *)
Definition quantitiesDiffer (a b : AccountBalanceFormatted) : Prop :=
  wei (bal a) <> wei (bal b) \/
  gotToken (bal a) <> gotToken (bal b) \/
  hsToken (bal a) <> hsToken (bal b).

(** ** The balance tracker: [balance(blockchain)]

    [blockNumbers().switchMap(bn => zip(got, hs, wei, combine).take(1).map(format))
       .startWith(undefined).shareReplay(1)].
    Each block starts one batch of three one-shot queries and abandons the
    batch before it; a batch emits once all three have resolved.  Batches
    are numbered so that a late answer can name the batch it belongs to.
    A query that fails ends the stream with an error and no reading; the
    inputs below are the blocks and the answers. *)
Module Tracker.

Inductive Query : Type := QGotToken | QHsToken | QWei.

Record Batch : Type := mkBatch {
  batchBlock : Z;
  gotRes : option BN.t;
  hsRes : option BN.t;
  weiRes : option BN.t
}.

Record State : Type := mkState {
  batchNo : nat;               (* batches started so far *)
  inflight : option Batch      (* the inner subscription of switchMap *)
}.

Inductive Input : Type :=
| NewBlock (bn : Z)
| Resolved (batch : nat) (q : Query) (v : BN.t).

Definition init : State := {| batchNo := 0; inflight := None |}.

Definition slot (b : Batch) (q : Query) : option BN.t :=
  match q with
  | QGotToken => gotRes b
  | QHsToken => hsRes b
  | QWei => weiRes b
  end.

Definition fill (b : Batch) (q : Query) (v : BN.t) : Batch :=
  match q with
  | QGotToken => mkBatch (batchBlock b) (Some v) (hsRes b) (weiRes b)
  | QHsToken => mkBatch (batchBlock b) (gotRes b) (Some v) (weiRes b)
  | QWei => mkBatch (batchBlock b) (gotRes b) (hsRes b) (Some v)
  end.

(** The result selector of [zip], once every slot holds a value. *)
Definition combine (b : Batch) : option AccountBalance :=
  match gotRes b, hsRes b, weiRes b with
  | Some g, Some h, Some w =>
      Some {| blockNumber := batchBlock b; wei := w; gotToken := g; hsToken := h |}
  | _, _, _ => None
  end.

Definition step (s : State) (i : Input) : State * list AccountBalanceFormatted :=
  match i with
  | NewBlock bn =>
      ({| batchNo := S (batchNo s); inflight := Some (mkBatch bn None None None) |}, [])
  | Resolved n q v =>
      match inflight s with
      | Some b =>
          if (n =? batchNo s)%nat then
            match slot b q with
            | Some _ => (s, [])                 (* a promise settles once *)
            | None =>
                let b' := fill b q v in
                match combine b' with
                | Some bl => ({| batchNo := batchNo s; inflight := None |}, [format bl])
                | None => ({| batchNo := batchNo s; inflight := Some b' |}, [])
                end
            end
          else (s, [])
      | None => (s, [])
      end
  end.

(** What a subscriber of the handle's [balance] stream sees from the
    start: the [startWith(undefined)] value, then the readings. *)
Definition stream (ins : list Input) : list (option AccountBalanceFormatted) :=
  None :: map Some (snd (Rx.run step init ins)).

End Tracker.

(** ** The merged balances pipeline: [balances(accs)] *)
Module Balances.

(** [Object.assign({}, b, { delta })] *)
Definition withDelta (b : AccountBalanceFormatted) (d : DeltaRecord)
    : AccountBalanceFormatted :=
  {| bal := bal b; eth := eth b; got := got b; hs := hs b; delta := d |}.

(** The object literal of line 309: every key is written, a quantity that
    did not change with the value [undefined]. *)
Definition rawDelta (a b : AccountBalanceFormatted) : DeltaRecord :=
  <["eth" := if negb (BN.eq (wei (bal a)) (wei (bal b)))
             then Some (weiToEthString (as_Wei (BN.sub (wei (bal b)) (wei (bal a)))))
             else None]>
  (<["got" := if negb (BN.eq (gotToken (bal a)) (gotToken (bal b)))
              then Some (BN.toString (BN.sub (gotToken (bal b)) (gotToken (bal a))))
              else None]>
  (<["hs" := if negb (BN.eq (hsToken (bal a)) (hsToken (bal b)))
             then Some (BN.toString (BN.sub (hsToken (bal b)) (hsToken (bal a))))
             else None]> ∅)).

(** A string is truthy unless empty. *)
Definition truthy (s : string) : bool :=
  match s with EmptyString => false | String _ _ => true end.

(** [s[0] !== '-'] *)
Definition firstIsNotMinus (s : string) : bool :=
  match s with
  | EmptyString => true
  | String c _ => negb (Ascii.eqb c "-")
  end.

(** One round of the [forEach] of line 315:
    [d.delta[k] && d.delta[k][0] !== '-' && (d.delta[k] = '+' + d.delta[k])] *)
Definition signKey (d : DeltaRecord) (k : string) : DeltaRecord :=
  match d !! k with
  | Some (Some s) =>
      if truthy s && firstIsNotMinus s then <[k := Some ("+" +:+ s)]> d else d
  | _ => d
  end.

(** The [forEach] of line 315 is a statement of its own: the declaration
    of [d] ends with its type assertion at the line break. *)
Definition signDelta (d : DeltaRecord) : DeltaRecord :=
  fold_left signKey ["eth"; "got"; "hs"] d.

(** The value [d] built when both members of the pair are readings. *)
Definition deltaView (a b : AccountBalanceFormatted) : AccountBalanceFormatted :=
  withDelta b (signDelta (rawDelta a b)).

(** The projection of [switchMap]: what the inner observable emits at
    once, and what it will emit when its 5000 ms delay elapses. *)
Definition project (ab : option AccountBalanceFormatted * option AccountBalanceFormatted)
    : list (option AccountBalanceFormatted) * option (option AccountBalanceFormatted) :=
  match ab with
  | (Some a, Some b) => ([Some (deltaView a b)], Some (Some b))
  | (_, b) => ([b], None)
  end.

(** Operator state of one account's inner pipeline. *)
Record PipeState : Type := mkPipe {
  key : option AccountBalanceFormatted;            (* distinctUntilChanged *)
  prev : option (option AccountBalanceFormatted);  (* pairwise *)
  timer : option (option AccountBalanceFormatted)  (* pending delayed value *)
}.

Inductive PipeInput : Type :=
| Src (v : option AccountBalanceFormatted)   (* [acc.balance] emits *)
| Tick.                                      (* the pending delay elapses *)

(** On subscription the inner [startWith(undefined)] reaches [pairwise]
    and the outer one is emitted. *)
Definition pipeInit : PipeState :=
  {| key := None; prev := fst (Rx.pairwise None None); timer := None |}.

Definition pipeInitOut : list (option AccountBalanceFormatted) := [None].

(** A value that passed deduplication goes through [pairwise]; a pair
    replaces the inner observable of [switchMap], dropping its timer. *)
Definition afterDedup (s : PipeState) (x : AccountBalanceFormatted)
    : PipeState * list (option AccountBalanceFormatted) :=
  let '(prev', pairs) := Rx.pairwise (prev s) (Some x) in
  match pairs with
  | [] => ({| key := key s; prev := prev'; timer := timer s |}, [])
  | ab :: _ =>
      let '(now, later) := project ab in
      ({| key := key s; prev := prev'; timer := later |}, now)
  end.

Definition pipeStep (s : PipeState) (i : PipeInput)
    : PipeState * list (option AccountBalanceFormatted) :=
  match i with
  | Src v =>
      let '(key', passed) := dedupStep (key s) v in
      let s1 := {| key := key'; prev := prev s; timer := timer s |} in
      match passed with
      | [] => (s1, [])
      | x :: _ => afterDedup s1 x
      end
  | Tick =>
      match timer s with
      | Some b => ({| key := key s; prev := prev s; timer := None |}, [b])
      | None => (s, [])
      end
  end.

(** Everything one pipeline emits, from its subscription on. *)
Definition pipeEmissions (ins : list PipeInput) : list (option AccountBalanceFormatted) :=
  pipeInitOut ++ snd (Rx.run pipeStep pipeInit ins).

(** The merged map is a JS object: a key may be present with the value
    [undefined]. *)
Abbreviation BalanceMap := (gmap string (option AccountBalanceFormatted)).

(** [b => ({ [acc.owner.addressStr]: b })] *)
Definition entry (addressStr : string) (b : option AccountBalanceFormatted) : BalanceMap :=
  {[ addressStr := b ]}.

(** [(bs, b) => Object.assign({}, bs, b)]: the keys of [b] win. *)
Definition assign (bs b : BalanceMap) : BalanceMap := b ∪ bs.

(** The outer [mergeMap] keeps one pipeline per account handle it was
    given; the [scan] folds their emissions into one object.  Every
    pipeline is fed on its own: the value the account's [balance] stream
    replays on subscription and each later value are [Feed]s of that
    pipeline, and so are the readings two pipelines of one handle share. *)
Record State : Type := mkState {
  pipes : list (string * PipeState);
  acc : BalanceMap
}.

Inductive Input : Type :=
| Subscribe (addressStr : string)       (* an account handle arrives *)
| Feed (i : nat) (x : PipeInput).       (* input for the i-th pipeline *)

Definition init : State := {| pipes := []; acc := ∅ |}.

(** [scan]: fold the emitted objects, publishing every accumulator. *)
Definition scanStep (bs : BalanceMap) (b : BalanceMap) : BalanceMap * list BalanceMap :=
  let bs' := assign bs b in (bs', [bs']).

Definition publish (addressStr : string) (bs : BalanceMap)
    (outs : list (option AccountBalanceFormatted)) : BalanceMap * list BalanceMap :=
  Rx.run scanStep bs (map (entry addressStr) outs).

Definition step (s : State) (i : Input) : State * list BalanceMap :=
  match i with
  | Subscribe a =>
      let '(acc', pub) := publish a (acc s) pipeInitOut in
      ({| pipes := pipes s ++ [(a, pipeInit)]; acc := acc' |}, pub)
  | Feed i x =>
      match pipes s !! i with
      | Some (a, p) =>
          let '(p', outs) := pipeStep p x in
          let '(acc', pub) := publish a (acc s) outs in
          ({| pipes := <[i := (a, p')]> (pipes s); acc := acc' |}, pub)
      | None => (s, [])
      end
  end.

Definition run (ins : list Input) : State * list BalanceMap := Rx.run step init ins.

(** *** Reading a run back

    The values [acc.balance] delivered to a pipeline, and the inputs a
    run of the merged pipeline routed to its [i]-th pipeline ([n]
    pipelines exist when the run starts). *)
Definition sources (ins : list PipeInput) : list (option AccountBalanceFormatted) :=
  flat_map (fun i => match i with Src v => [v] | Tick => [] end) ins.









End Balances.

(** ** The message delivery proxy: [createP2PProxy] *)
Module Proxy.

Inductive P2PMode : Type := normal | manual.

(** An [Address] is a buffer of bytes; [toString('hex')] prints two
    lower-case digits per byte. *)
Definition Address : Type := list Byte.byte.

Definition hexDigit (n : N) : ascii :=
  match n with
  | 0 => "0" | 1 => "1" | 2 => "2" | 3 => "3" | 4 => "4" | 5 => "5"
  | 6 => "6" | 7 => "7" | 8 => "8" | 9 => "9" | 10 => "a" | 11 => "b"
  | 12 => "c" | 13 => "d" | 14 => "e" | _ => "f"
  end%N%char.

Definition hexByte (b : Byte.byte) : string :=
  let n := Byte.to_N b in
  String (hexDigit (n / 16)) (String (hexDigit (n mod 16)) EmptyString).

Fixpoint toHex (a : Address) : string :=
  match a with
  | [] => EmptyString
  | b :: a' => hexByte b +:+ toHex a'
  end.

(** What [send] hands back: the promise of the transport's raw send, or
    an already-resolved [false]. *)
Inductive SendResult : Type := TransportPromise | ResolvedFalse.

Section WithMessages.

(** The framework's signed messages and their wire form. *)
Context {SignedMessage Wire : Type}.
Variable serialize : SignedMessage -> Wire.

Record State : Type := mkState {
  mode : P2PMode;
  messages : list (Address * SignedMessage);   (* value of the BehaviorSubject *)
  transport : list (string * Wire)             (* calls of [p2p.send], oldest first *)
}.

Definition create : State :=
  {| mode := normal; messages := []; transport := [] |}.

(** [p2p.send(t.toString('hex'), message.serialize(m))] *)
Definition rawSend (tm : Address * SignedMessage) : string * Wire :=
  (toHex (fst tm), serialize (snd tm)).

Definition flush (s : State) : State :=
  {| mode := mode s;
     messages := [];
     transport := fold_left (fun tr tm => tr ++ [rawSend tm]) (messages s) (transport s) |}.

Definition setMode (m : P2PMode) (s : State) : State :=
  let s' := flush s in
  {| mode := m; messages := messages s'; transport := transport s' |}.

Definition getMode (s : State) : P2PMode := mode s.

Definition send (to : Address) (msg : SignedMessage) (s : State) : State * SendResult :=
  match mode s with
  | normal =>
      ({| mode := mode s; messages := messages s;
          transport := transport s ++ [rawSend (to, msg)] |}, TransportPromise)
  | manual =>
      ({| mode := mode s; messages := messages s ++ [(to, msg)];
          transport := transport s |}, ResolvedFalse)
  end.

End WithMessages.

End Proxy.

(** ** The merged event log and the engine wiring of [initAccount] *)
Module Aggregator.

Inductive EventSource : Type := Blockchain | P2P | BlockNumber.

(** Who registered on a raw feed. *)
Inductive Role : Type := MergedLog | EngineDriver | Logger.

(** What the transport's emitter does with an exception thrown by a
    listener.  The transport class is part of the framework, not of this
    repository; the source only shows that it has a ['callback-error']
    event, for which [initAccount] registers a handler. *)
Inductive EmitPolicy : Type :=
| IsolateEach    (* report through 'callback-error', go on with the next listener *)
| AbortEmit      (* report through 'callback-error', skip the remaining listeners *)
| Propagate.     (* the exception leaves [emit] *)

#[global] Instance EventSource_eq_dec : EqDecision EventSource.
Proof. solve_decision. Defined.

#[global] Instance Role_eq_dec : EqDecision Role.
Proof. solve_decision. Defined.

Section WithFramework.

(** Opaque payloads of the framework: on-chain events, peer messages
    on the wire and decoded; [deserializeAndDecode] answers [None]
    where the framework's function throws. *)
Context {ChainEvent Wire Decoded : Type}.
Variable deserializeAndDecode : Wire -> option Decoded.
Variable policy : EmitPolicy.

Inductive Payload : Type :=
| ChainPayload (e : ChainEvent)
| WirePayload (m : Wire)
| NumberPayload (n : Z).

Record Event : Type := mkEvent {
  at_ : Z;
  block : option Z;        (* not set on block-number events *)
  source : EventSource;
  event : Payload
}.

(** One notification of a raw feed. *)
Inductive Raw : Type :=
| RawChain (e : ChainEvent)
| RawMessage (m : Wire)
| RawBlock (bn : Z).

(** [Date.now()] and [blockchain.monitoring.blockNumber()] as read
    when the notification is handled.  The monitor knows no block number
    before its first block: [None] is [undefined], which the source reads
    through a non-null assertion. *)
Record Env : Type := mkEnv { now : Z; blockNow : option Z }.

(** [toNumber()] of the framework's big numbers: the library refuses a
    number that needs more than 53 bits. *)
Definition toNumber (z : Z) : option Z :=
  if Z.abs z <? 2 ^ 53 then Some z else None.

(** [blockchain.monitoring.blockNumber()!.toNumber()]; [None] where the
    expression throws. *)
Definition blockNumberNow (env : Env) : option Z :=
  match blockNow env with
  | Some bn => toNumber bn
  | None => None
  end.

Definition feedOf (r : Raw) : EventSource :=
  match r with
  | RawChain _ => Blockchain
  | RawMessage _ => P2P
  | RawBlock _ => BlockNumber
  end.

(** The three [map]s under [Observable.merge]; [None] where the callback
    throws. *)
Definition wrap (env : Env) (r : Raw) : option Event :=
  match r with
  | RawChain e =>
      match blockNumberNow env with
      | Some n => Some {| at_ := now env; block := Some n; source := Blockchain;
                          event := ChainPayload e |}
      | None => None
      end
  | RawMessage m =>
      match blockNumberNow env with
      | Some n => Some {| at_ := now env; block := Some n; source := P2P;
                          event := WirePayload m |}
      | None => None
      end
  | RawBlock bn =>
      match toNumber bn with
      | Some n => Some {| at_ := now env; block := None; source := BlockNumber;
                          event := NumberPayload n |}
      | None => None
      end
  end.

(** *** [collectEvents]: [scan((a, e) => a.concat([e]), []).shareReplay(1)] *)

Record Observer : Type := mkObserver {
  attached : bool;
  received : list (list Event)     (* notifications, oldest first *)
}.

Record Log : Type := mkLog {
  history : list Event;            (* accumulator of [scan] *)
  replay : option (list Event);    (* buffer of the replay subject *)
  connected : bool;                (* the subject exists and holds the source *)
  observers : list Observer
}.

Definition emptyLog : Log :=
  {| history := []; replay := None; connected := false; observers := [] |}.

Definition notify (v : list Event) (o : Observer) : Observer :=
  if attached o then {| attached := true; received := received o ++ [v] |} else o.

(** The source emits [e]: [scan] appends it and the subject stores and
    broadcasts the new array. *)
Definition logNext (e : Event) (l : Log) : Log :=
  let h := history l ++ [e] in
  {| history := h; replay := Some h; connected := connected l;
     observers := map (notify h) (observers l) |}.

(** A subscriber arrives: the source is subscribed only when no subject
    exists yet; the newcomer gets the buffered array at once.  The
    boolean tells whether the source was subscribed. *)
Definition logSubscribe (l : Log) : Log * bool :=
  let o := {| attached := true;
              received := match replay l with Some h => [h] | None => [] end |} in
  ({| history := history l; replay := replay l; connected := true;
      observers := observers l ++ [o] |}, negb (connected l)).

(** A subscriber leaves; the subject keeps the source, which it gives up
    only once the source has completed. *)
Definition logUnsubscribe (i : nat) (l : Log) : Log :=
  {| history := history l; replay := replay l; connected := connected l;
     observers := alter (fun o => {| attached := false; received := received o |})
                        i (observers l) |}.

(** The source fails: the subject passes the error on and is finished, and
    every subscription to it ends.  [shareReplay] then makes a new subject,
    fed by a new [scan], for the next subscriber. *)
Definition logError (l : Log) : Log :=
  {| history := []; replay := None; connected := false;
     observers := map (fun o => {| attached := false; received := received o |})
                      (observers l) |}.

(** *** The account's wiring *)

Inductive EngineCall : Type :=
| OnBlock (bn : Z)
| OnBlockchainEvent (e : ChainEvent)
| OnMessage (m : Decoded).

Inductive Console : Type :=
| LogP2P (m : Decoded)           (* console.log('p2p', ...) *)
| WarnEmitError (m : Wire).      (* console.warn('P2P:emit-error', ...) *)

Record State : Type := mkState {
  log : Log;
  registry : list (EventSource * Role);   (* registrations on the raw feeds, in order *)
  engine : list EngineCall;
  console : list Console;
  escaped : list Raw                      (* notifications whose exception left the emitter *)
}.

(** Subscribing the merge subscribes its three inputs, left to right. *)
Definition mergeSubscriptions : list (EventSource * Role) :=
  [(Blockchain, MergedLog); (P2P, MergedLog); (BlockNumber, MergedLog)].

Definition subscribeEvents (s : State) : State :=
  let '(l, fresh) := logSubscribe (log s) in
  {| log := l;
     registry := if fresh then registry s ++ mergeSubscriptions else registry s;
     engine := engine s; console := console s; escaped := escaped s |}.

Definition register (f : EventSource) (r : Role) (s : State) : State :=
  {| log := log s; registry := registry s ++ [(f, r)];
     engine := engine s; console := console s; escaped := escaped s |}.

(** Lines 189-202, in order: the internal subscription of the log, the
    block-number subscription driving [onBlock], the ['*'] listener,
    and the two ['message-received'] listeners. *)
Definition initAccount : State :=
  register P2P Logger
    (register P2P EngineDriver
      (register Blockchain EngineDriver
        (register BlockNumber EngineDriver
          (subscribeEvents
            {| log := emptyLog; registry := []; engine := [];
               console := []; escaped := [] |})))).

Definition callEngine (c : EngineCall) (s : State) : State :=
  {| log := log s; registry := registry s; engine := engine s ++ [c];
     console := console s; escaped := escaped s |}.

Definition write (c : Console) (s : State) : State :=
  {| log := log s; registry := registry s; engine := engine s;
     console := console s ++ [c]; escaped := escaped s |}.

Definition escape (r : Raw) (s : State) : State :=
  {| log := log s; registry := registry s; engine := engine s;
     console := console s; escaped := escaped s ++ [r] |}.

(** The block-number subscription driving [onBlock]: line 191 adds it to
    the internal subscription of the log, so it ends when that one does. *)
Definition drivesOnBlock (fr : EventSource * Role) : bool :=
  match fr with
  | (BlockNumber, EngineDriver) => true
  | _ => false
  end.

(** The registrations that end when the merged log fails: its own three,
    and the one tied to its internal subscription. *)
Definition endsWithLog (fr : EventSource * Role) : bool :=
  match fr with
  | (_, MergedLog) => true
  | _ => drivesOnBlock fr
  end.

(** A [map] callback of the merged log has thrown: the error runs down
    through [merge], [scan] and [shareReplay] to the subscribers; the
    internal subscription of line 189 has no error callback, so it
    unsubscribes and throws the error again. *)
Definition failEvents (s : State) : State :=
  {| log := logError (log s);
     registry := List.filter (fun fr => negb (endsWithLog fr)) (registry s);
     engine := engine s; console := console s; escaped := escaped s |}.

(** One registered callback handling one notification; [false] when it
    throws.  The failing merged log throws when a subscriber is attached
    to throw the error again. *)
Definition handler (env : Env) (r : Raw) (role : Role) (s : State) : State * bool :=
  match role, r with
  | MergedLog, _ =>
      match wrap env r with
      | Some e =>
          ({| log := logNext e (log s); registry := registry s;
              engine := engine s; console := console s; escaped := escaped s |}, true)
      | None => (failEvents s, negb (existsb attached (observers (log s))))
      end
  | EngineDriver, RawBlock bn => (callEngine (OnBlock bn) s, true)
  | EngineDriver, RawChain e => (callEngine (OnBlockchainEvent e) s, true)
  | EngineDriver, RawMessage m =>
      match deserializeAndDecode m with
      | Some d => (callEngine (OnMessage d) s, true)
      | None => (s, false)
      end
  | Logger, RawMessage m =>
      match deserializeAndDecode m with
      | Some d => (write (LogP2P d) s, true)
      | None => (s, false)
      end
  | Logger, _ => (s, true)
  end.

(** The ['callback-error'] handler of line 204. *)
Definition onCallbackError (r : Raw) (s : State) : State :=
  match r with
  | RawMessage m => write (WarnEmitError m) s
  | _ => s
  end.

(** The transport's emitter is the one with a ['callback-error'] event;
    a subscriber of the monitor's streams that throws ends the
    notification, the exception leaving it. *)
Definition policyOf (f : EventSource) : EmitPolicy :=
  match f with
  | P2P => policy
  | _ => Propagate
  end.

(** Calling the registered callbacks of one feed in registration order. *)
Fixpoint emit (p : EmitPolicy) (env : Env) (r : Raw) (roles : list Role) (s : State) : State :=
  match roles with
  | [] => s
  | role :: rest =>
      let '(s', ok) := handler env r role s in
      if ok then emit p env r rest s'
      else match p with
           | IsolateEach => emit p env r rest (onCallbackError r s')
           | AbortEmit => onCallbackError r s'
           | Propagate => escape r s'
           end
  end.

Definition listeners (f : EventSource) (s : State) : list Role :=
  map snd (filter (fun fr => bool_decide (fst fr = f)) (registry s)).

Inductive Input : Type :=
| Arrive (env : Env) (r : Raw)   (* a raw feed notifies *)
| Attach                         (* a consumer subscribes to [events] *)
| Detach (i : nat).              (* the i-th subscriber unsubscribes *)

(** Subscriber 0 is the internal subscription of line 189: unsubscribing
    it ([sub.unsubscribe()] in [dispose]) also ends the subscription
    driving [onBlock]. *)
Definition step (s : State) (i : Input) : State :=
  match i with
  | Arrive env r => emit (policyOf (feedOf r)) env r (listeners (feedOf r) s) s
  | Attach => subscribeEvents s
  | Detach i =>
      {| log := logUnsubscribe i (log s);
         registry := if (i =? 0)%nat
                     then List.filter (fun fr => negb (drivesOnBlock fr)) (registry s)
                     else registry s;
         engine := engine s; console := console s; escaped := escaped s |}
  end.

Definition run (s : State) (ins : list Input) : State := fold_left step ins s.

(** The events a sequence of inputs appends to the log. *)
Definition eventsOf (ins : list Input) : list Event :=
  flat_map (fun i => match i with Arrive env r => option_list (wrap env r) | _ => [] end) ins.

Definition arrivals (ins : list Input) : list Raw :=
  flat_map (fun i => match i with Arrive _ r => [r] | _ => [] end) ins.

(** Reference for the comparison with [engine]: one call per block
    number and per on-chain event, one per peer message that decodes. *)
Definition expectedEngineCalls (r : Raw) : list EngineCall :=
  match r with
  | RawBlock bn => [OnBlock bn]
  | RawChain e => [OnBlockchainEvent e]
  | RawMessage m =>
      match deserializeAndDecode m with
      | Some d => [OnMessage d]
      | None => []
      end
  end.

(** Registrations of the merged log on one feed. *)
Definition logSubscriptions (f : EventSource) (s : State) : nat :=
  length (filter (fun fr => bool_decide (fr = (f, MergedLog))) (registry s)).

(** *** Reading a run back *)

(** The registrations [initAccount] leaves on the raw feeds. *)
Definition wiring : list (EventSource * Role) :=
  [(Blockchain, MergedLog); (P2P, MergedLog); (BlockNumber, MergedLog);
   (BlockNumber, EngineDriver); (Blockchain, EngineDriver);
   (P2P, EngineDriver); (P2P, Logger)].

Definition wired (s : State) : Prop :=
  registry s = wiring /\ connected (log s) = true.

(** The same with or without the subscription driving [onBlock]: the
    merged log is wired whether or not its internal subscription has been
    given up. *)
Definition logWired (s : State) : Prop :=
  (registry s = wiring \/
   registry s = List.filter (fun fr => negb (drivesOnBlock fr)) wiring) /\
  connected (log s) = true.

(** The arrays the log broadcasts while [new] is appended to [h]. *)
Fixpoint snapshots (h new : list Event) : list (list Event) :=
  match new with
  | [] => []
  | e :: rest => (h ++ [e]) :: snapshots (h ++ [e]) rest
  end.

(** The replay buffer holds the whole history once there is one. *)
Definition replayOf (h : list Event) : option (list Event) :=
  match h with [] => None | _ => Some h end.

(** The notification can be wrapped: no [map] callback of the merged log
    throws on it. *)
Definition wraps (i : Input) : bool :=
  match i with
  | Arrive env r => match wrap env r with Some _ => true | None => false end
  | _ => true
  end.

Definition wrapsAll (ins : list Input) : bool := forallb wraps ins.

End WithFramework.

(** A decoder for worked examples: a wire message decodes when it opens
    with a brace. *)
Definition sampleDecode (w : string) : option string :=
  match w with
  | String "{" _ => Some w
  | _ => None
  end.

End Aggregator.

(** ** The readiness gate of [initAccount]: [Observable.zip(...).mapTo(handle)] *)
Module Ready.

Section Zip.

Context {A B C : Type}.

(** [zip] keeps one queue per input and remembers which inputs have
    completed with values still queued. *)
Record Zip : Type := mkZip {
  q1 : list A; q2 : list B; q3 : list C;
  fin1 : bool; fin2 : bool; fin3 : bool;
  closed : bool                       (* completed or failed *)
}.

Definition zipInit : Zip :=
  {| q1 := []; q2 := []; q3 := []; fin1 := false; fin2 := false; fin3 := false;
     closed := false |}.

Definition isNil {X : Type} (l : list X) : bool :=
  match l with [] => true | _ => false end.

(** [checkIterators]: with a value in every queue, take one from each,
    emit the tuple, and complete if an input that has completed is now
    drained. *)
Definition checkIterators (z : Zip) : Zip * list (A * B * C) :=
  match q1 z, q2 z, q3 z with
  | a :: r1, b :: r2, c :: r3 =>
      ({| q1 := r1; q2 := r2; q3 := r3;
          fin1 := fin1 z; fin2 := fin2 z; fin3 := fin3 z;
          closed := (fin1 z && isNil r1) || (fin2 z && isNil r2) || (fin3 z && isNil r3) |},
       [(a, b, c)])
  | _, _, _ => (z, [])
  end.

Definition close (z : Zip) : Zip :=
  {| q1 := q1 z; q2 := q2 z; q3 := q3 z;
     fin1 := fin1 z; fin2 := fin2 z; fin3 := fin3 z; closed := true |}.

Definition next1 (a : A) (z : Zip) : Zip * list (A * B * C) :=
  if closed z then (z, [])
  else checkIterators {| q1 := q1 z ++ [a]; q2 := q2 z; q3 := q3 z;
                         fin1 := fin1 z; fin2 := fin2 z; fin3 := fin3 z;
                         closed := false |}.

Definition next2 (b : B) (z : Zip) : Zip * list (A * B * C) :=
  if closed z then (z, [])
  else checkIterators {| q1 := q1 z; q2 := q2 z ++ [b]; q3 := q3 z;
                         fin1 := fin1 z; fin2 := fin2 z; fin3 := fin3 z;
                         closed := false |}.

Definition next3 (c : C) (z : Zip) : Zip * list (A * B * C) :=
  if closed z then (z, [])
  else checkIterators {| q1 := q1 z; q2 := q2 z; q3 := q3 z ++ [c];
                         fin1 := fin1 z; fin2 := fin2 z; fin3 := fin3 z;
                         closed := false |}.

(** An input completes: with an empty queue the zip completes, else the
    input is marked, and the zip completes once all are marked. *)
Definition complete1 (z : Zip) : Zip :=
  if closed z then z
  else if isNil (q1 z) then close z
  else {| q1 := q1 z; q2 := q2 z; q3 := q3 z;
          fin1 := true; fin2 := fin2 z; fin3 := fin3 z;
          closed := fin2 z && fin3 z |}.

Definition complete2 (z : Zip) : Zip :=
  if closed z then z
  else if isNil (q2 z) then close z
  else {| q1 := q1 z; q2 := q2 z; q3 := q3 z;
          fin1 := fin1 z; fin2 := true; fin3 := fin3 z;
          closed := fin1 z && fin3 z |}.

Definition complete3 (z : Zip) : Zip :=
  if closed z then z
  else if isNil (q3 z) then close z
  else {| q1 := q1 z; q2 := q2 z; q3 := q3 z;
          fin1 := fin1 z; fin2 := fin2 z; fin3 := true;
          closed := fin1 z && fin2 z |}.

(** An input fails: the zip fails and emits nothing more. *)
Definition fail (z : Zip) : Zip := close z.

End Zip.

Arguments Zip : clear implicits.

(** What happens around the gate. *)
Inductive Input : Type :=
| StatusChanged (status : string)     (* the transport's 'status-changed' *)
| BlockNumberResolved (bn : Z)        (* [rpc.blockNumber()] resolves *)
| BlockNumberRejected
| BalanceResolved (w : BN.t)          (* [rpc.getBalance(...)] resolves *)
| BalanceRejected.

(** The constant [mapTo] replaces every tuple with. *)
Inductive AccountHandle : Type := Handle.

Record State : Type := mkState {
  zip : Zip string Z BN.t;
  taken : bool;          (* [take(1)] after the 'connected' filter has fired *)
  settled2 : bool;       (* the block-number promise has settled *)
  settled3 : bool        (* the balance promise has settled *)
}.

Definition init : State :=
  {| zip := zipInit; taken := false; settled2 := false; settled3 := false |}.

Definition mapTo {X : Type} (l : list X) : list AccountHandle := map (fun _ => Handle) l.

Definition step (s : State) (i : Input) : State * list AccountHandle :=
  match i with
  | StatusChanged status =>
      if String.eqb status "connected" && negb (taken s) then
        let '(z, out) := next1 status (zip s) in
        ({| zip := complete1 z; taken := true;
            settled2 := settled2 s; settled3 := settled3 s |}, mapTo out)
      else (s, [])
  | BlockNumberResolved bn =>
      if settled2 s then (s, [])
      else
        let '(z, out) := next2 bn (zip s) in
        ({| zip := complete2 z; taken := taken s;
            settled2 := true; settled3 := settled3 s |}, mapTo out)
  | BlockNumberRejected =>
      if settled2 s then (s, [])
      else ({| zip := fail (zip s); taken := taken s;
               settled2 := true; settled3 := settled3 s |}, [])
  | BalanceResolved w =>
      if settled3 s then (s, [])
      else
        let '(z, out) := next3 w (zip s) in
        ({| zip := complete3 z; taken := taken s;
            settled2 := settled2 s; settled3 := true |}, mapTo out)
  | BalanceRejected =>
      if settled3 s then (s, [])
      else ({| zip := fail (zip s); taken := taken s;
               settled2 := settled2 s; settled3 := true |}, [])
  end.

(** The handles the returned observable has emitted after [ins]. *)
Definition resolved (ins : list Input) : list AccountHandle :=
  snd (Rx.run step init ins).

Definition isConnected (i : Input) : bool :=
  match i with StatusChanged s => String.eqb s "connected" | _ => false end.

Definition isBlockNumber (i : Input) : bool :=
  match i with BlockNumberResolved _ => true | _ => false end.

Definition isBalance (i : Input) : bool :=
  match i with BalanceResolved _ => true | _ => false end.

(** *** Reading a run back *)

(** Every non-empty queue of the zip is accounted for by an input of its
    kind seen so far. *)
Definition accounted (s : State) (c1 c2 c3 : bool) : Prop :=
  (isNil (q1 (zip s)) = false -> c1 = true) /\
  (isNil (q2 (zip s)) = false -> c2 = true) /\
  (isNil (q3 (zip s)) = false -> c3 = true).

End Ready.

(** ** The session manager: [accounts()] *)
Module Session.

(** An entry of [cfg.userAccounts]. *)
Record UserAccount : Type := mkUserAccount {
  privateKey : string;
  address : string
}.

Record UserSession : Type := mkUserSession {
  userAccounts : list UserAccount
}.

(** The string fields of [AccountBase]; its two buffers are the bytes of
    [privateKeyStr] and [addressStr]. *)
Record AccountBase : Type := mkAccountBase {
  privateKeyStr : string;
  addressStr : string;
  addressShort : string
}.

(** An account handle, with the rank of the initializer call that made it. *)
Record Account : Type := mkAccount {
  owner : AccountBase;
  serial : nat
}.

(** [util.stripHexPrefix] *)
Definition stripHexPrefix (s : string) : string :=
  match s with
  | String "0" (String "x" rest) => rest
  | _ => s
  end.

(** ['0x' + a.substring(0, 16) + '...'] *)
Definition shortAddress (a : string) : string :=
  "0x" +:+ String.substring 0 16 a +:+ "...".

Section WithKeys.

(** Hex private key to hex address: [new Buffer(.., 'hex')],
    [util.privateToAddress] and [toString('hex')]; [None] where the
    conversion throws, on a string that is no private key. *)
Variable privateToAddress : string -> option string.

(** [None] where [toAccount] throws. *)
Definition toAccount (a : UserAccount) : option AccountBase :=
  let privateKeyStr := stripHexPrefix (privateKey a) in
  match privateToAddress privateKeyStr with
  | Some addressStr =>
      Some {| privateKeyStr := privateKeyStr;
              addressStr := addressStr;
              addressShort := shortAddress addressStr |}
  | None => None
  end.

Record State : Type := mkState {
  inited : list Account;            (* the array closed over by [accounts] *)
  pending : list Account;           (* initializations of the current inner stream *)
  buffer : list Account;            (* what [toArray] has collected *)
  initCalls : list AccountBase;     (* arguments of every initializer call *)
  published : list (list Account)
}.

Inductive Input : Type :=
| Config (cfg : UserSession)        (* the session emits a configuration *)
| InitResolved (k : nat)            (* the k-th pending initialization emits *)
| InitFailed (k : nat).             (* the k-th pending initialization errors:
                                       a fetch of its readiness gate rejects *)

Definition init : State :=
  {| inited := []; pending := []; buffer := []; initCalls := []; published := [] |}.

(** [a => !inited.find(i => i.owner.addressStr === a.address)] *)
Definition notInited (inited : list Account) (a : UserAccount) : bool :=
  negb (existsb (fun i => String.eqb (addressStr (owner i)) (address a)) inited).

Fixpoint handles (from : nat) (l : list AccountBase) : list Account :=
  match l with
  | [] => []
  | b :: l' => {| owner := b; serial := from |} :: handles (S from) l'
  end.

(** [cfg.userAccounts.filter(..).map(a => toAccount(a))], evaluated inside
    the projection of [switchMap] before any initializer is called; [None]
    when [toAccount] throws on one of the entries. *)
Definition chosen (s : State) (cfg : UserSession) : option (list AccountBase) :=
  mapM toAccount (filter (notInited (inited s)) (userAccounts cfg)).

(** [accounts()] ends with an error, thrown by the projection or coming
    from a failed initialization through [mergeMap], [toArray] and
    [switchMap]: the inner stream is dropped with what it had pending,
    and nothing is published. *)
Definition abandon (s : State) : State :=
  {| inited := inited s; pending := []; buffer := buffer s;
     initCalls := initCalls s; published := published s |}.

Definition step (s : State) (i : Input) : State :=
  match i with
  | Config cfg =>
      (* switchMap drops the previous inner stream, then projects *)
      match chosen s cfg with
      | Some fresh =>
          let hs := handles (length (initCalls s)) fresh in
          let buf := inited s in                        (* Observable.from(inited) *)
          {| inited := inited s;
             pending := hs;
             buffer := buf;
             initCalls := initCalls s ++ fresh;
             published := if Ready.isNil hs then published s ++ [buf] else published s |}
      | None => abandon s
      end
  | InitResolved k =>
      match pending s !! k with
      | Some a =>
          let rest := delete k (pending s) in
          let buf := buffer s ++ [a] in
          {| inited := inited s ++ [a];             (* do(a => inited.push(a)) *)
             pending := rest;
             buffer := buf;
             initCalls := initCalls s;
             published := if Ready.isNil rest then published s ++ [buf] else published s |}
      | None => s
      end
  | InitFailed k =>
      match pending s !! k with
      | Some _ => abandon s
      | None => s
      end
  end.

(** Whether the input ends [accounts()] with an error. *)
Definition ends (s : State) (i : Input) : bool :=
  match i with
  | Config cfg => match chosen s cfg with Some _ => false | None => true end
  | InitResolved _ => false
  | InitFailed k => match pending s !! k with Some _ => true | None => false end
  end.

(** A run of the manager, as seen through one subscription of
    [accounts()]; once it has ended, nothing more is handled.  (A
    subscriber arriving after the error would make [shareReplay] subscribe
    the source again; that is not among the inputs.) *)
Fixpoint run (s : State) (ins : list Input) : State :=
  match ins with
  | [] => s
  | i :: rest => if ends s i then step s i else run (step s i) rest
  end.

(** Whether [accounts()] has ended in the run. *)
Fixpoint ended (s : State) (ins : list Input) : bool :=
  match ins with
  | [] => false
  | i :: rest => ends s i || ended (step s i) rest
  end.

Definition isResolution (i : Input) : Prop :=
  match i with InitResolved _ => True | _ => False end.

(** The entries of a configuration whose address is the address string of
    no initialized account, as often as they are listed and in their
    order. *)
Definition newEntries (s : State) (cfg : UserSession) : list UserAccount :=
  filter (fun a => address a ∉ map (fun i => addressStr (owner i)) (inited s))
         (userAccounts cfg).

End WithKeys.

End Session.

(** ** Runs of the proxy

    The three operations of the object [createP2PProxy] returns, called in
    any order. *)
Module ProxyRun.

Section WithMessages.

Context {SignedMessage Wire : Type}.
Variable serialize : SignedMessage -> Wire.

Inductive Call : Type :=
| CallSend (to : Proxy.Address) (msg : SignedMessage)
| CallSetMode (m : Proxy.P2PMode)
| CallFlush.

Definition call (s : Proxy.State) (c : Call) : Proxy.State :=
  match c with
  | CallSend to msg => fst (Proxy.send serialize to msg s)
  | CallSetMode m => Proxy.setMode serialize m s
  | CallFlush => Proxy.flush serialize s
  end.

Definition run (s : Proxy.State) (cs : list Call) : Proxy.State := fold_left call cs s.

(** The pairs handed to [send], in call order. *)
Definition handed (cs : list Call) : list (Proxy.Address * SignedMessage) :=
  flat_map (fun c => match c with CallSend to msg => [(to, msg)] | _ => [] end) cs.

End WithMessages.

End ProxyRun.

(** ** Reading runs of the balance streams back *)
Module BalancesRun.

(** Two formatted readings that agree on everything but the delta. *)
Definition sameReading (r x : AccountBalanceFormatted) : Prop :=
  bal r = bal x /\ eth r = eth x /\ got r = got x /\ hs r = hs x.

(** Neighbours in the list differ in some quantity. *)
Definition neighboursDiffer (l : list AccountBalanceFormatted) : Prop :=
  forall i a b, l !! i = Some a -> l !! S i = Some b -> quantitiesDiffer a b.

(** The block numbers a run of the tracker was given. *)
Definition blocksOf (ins : list Tracker.Input) : list Z :=
  flat_map (fun i => match i with Tracker.NewBlock bn => [bn] | _ => [] end) ins.

(** The readings of a run of the tracker, without the leading
    [undefined]. *)
Definition readings (ins : list Tracker.Input) : list AccountBalanceFormatted :=
  snd (Rx.run Tracker.step Tracker.init ins).

Definition sameQuery (q q' : Tracker.Query) : bool :=
  match q, q' with
  | Tracker.QGotToken, Tracker.QGotToken => true
  | Tracker.QHsToken, Tracker.QHsToken => true
  | Tracker.QWei, Tracker.QWei => true
  | _, _ => false
  end.

(** Some answer of the run is for query [q]. *)
Definition answers (q : Tracker.Query) (ins : list Tracker.Input) : bool :=
  existsb (fun i => match i with
                    | Tracker.Resolved _ q' _ => sameQuery q q'
                    | _ => false
                    end) ins.

(** The token delta the pipeline shows for a change from [x] to [y]. *)
Definition tokenDelta (x y : BN.t) : option string :=
  match Z.compare x y with
  | Eq => None
  | Lt => Some ("+" +:+ BN.toString (BN.sub y x))
  | Gt => Some (BN.toString (BN.sub y x))
  end.

(** Every reading the pipeline holds in its operator state is among the
    delivered values [S]. *)
Definition holdsDelivered (S : list (option AccountBalanceFormatted))
    (s : Balances.PipeState) : Prop :=
  (forall r, Balances.key s = Some r -> Some r ∈ S) /\
  (forall r, Balances.prev s = Some (Some r) -> Some r ∈ S) /\
  (forall r, Balances.timer s = Some (Some r) -> Some r ∈ S).

(** An emitted value is [undefined] or carries the quantities and strings
    of a delivered reading. *)
Definition fromDelivered (S : list (option AccountBalanceFormatted))
    (o : option AccountBalanceFormatted) : Prop :=
  forall r, o = Some r -> exists x, Some x ∈ S /\ sameReading r x.

End BalancesRun.

(** ** Reading runs of the account wiring back *)
Module AggregatorRun.

Section WithFramework.

Context {ChainEvent Wire Decoded : Type}.

(** The inputs that are notifications of feed [f]. *)
Definition fromFeed (f : Aggregator.EventSource)
    (ins : list (@Aggregator.Input ChainEvent Wire)) : list (@Aggregator.Input ChainEvent Wire) :=
  List.filter (fun i => match i with
                   | Aggregator.Arrive _ r => bool_decide (Aggregator.feedOf r = f)
                   | _ => false
                   end) ins.

(** The block numbers among the notifications, in arrival order. *)
Definition blockArrivals (ins : list (@Aggregator.Input ChainEvent Wire)) : list Z :=
  flat_map (fun i => match i with
                     | Aggregator.Arrive _ (Aggregator.RawBlock bn) => [bn]
                     | _ => []
                     end) ins.

(** The arguments of the [onBlock] calls, in call order. *)
Definition onBlockCalls (cs : list (@Aggregator.EngineCall ChainEvent Decoded)) : list Z :=
  flat_map (fun c => match c with Aggregator.OnBlock bn => [bn] | _ => [] end) cs.

End WithFramework.

End AggregatorRun.

(** ** Reading runs of the readiness gate back *)
Module ReadyRun.

Definition isRejection (i : Ready.Input) : bool :=
  match i with
  | Ready.BlockNumberRejected | Ready.BalanceRejected => true
  | _ => false
  end.

(** The block number fetch settles, either way. *)
Definition settlesBlockNumber (i : Ready.Input) : bool :=
  match i with
  | Ready.BlockNumberResolved _ | Ready.BlockNumberRejected => true
  | _ => false
  end.

(** The balance fetch settles, either way. *)
Definition settlesBalance (i : Ready.Input) : bool :=
  match i with
  | Ready.BalanceResolved _ | Ready.BalanceRejected => true
  | _ => false
  end.

(** Before the third input has arrived: each queue holds a value exactly
    when its input has arrived, and the zip is open. *)
Definition waiting (s : Ready.State) (c1 c2 c3 : bool) : Prop :=
  Ready.closed (Ready.zip s) = false /\
  Ready.isNil (Ready.q1 (Ready.zip s)) = negb c1 /\
  Ready.isNil (Ready.q2 (Ready.zip s)) = negb c2 /\
  Ready.isNil (Ready.q3 (Ready.zip s)) = negb c3 /\
  Ready.fin1 (Ready.zip s) = c1 /\ Ready.fin2 (Ready.zip s) = c2 /\
  Ready.fin3 (Ready.zip s) = c3 /\
  Ready.taken s = c1 /\ Ready.settled2 s = c2 /\ Ready.settled3 s = c3 /\
  c1 && c2 && c3 = false.

(** An input that has not delivered yet has nothing queued. *)
Definition idle (s : Ready.State) : Prop :=
  (Ready.taken s = false -> Ready.q1 (Ready.zip s) = []) /\
  (Ready.settled2 s = false -> Ready.q2 (Ready.zip s) = []) /\
  (Ready.settled3 s = false -> Ready.q3 (Ready.zip s) = []).

End ReadyRun.

(** ** Reading runs of the session manager back *)
Module SessionRun.

(** Every handle known to the manager was made by the initializer call of
    its rank, and no two handles share a rank. *)
Definition backed (s : Session.State) : Prop :=
  (forall a, a ∈ Session.inited s ++ Session.pending s ->
     Session.initCalls s !! Session.serial a = Some (Session.owner a)) /\
  NoDup (map Session.serial (Session.inited s ++ Session.pending s)).

End SessionRun.

(** ** The channel card (src/app/components/Channel.tsx) *)
Module ChannelView.

(** The ['closed'] case of [renderVisibile]. *)

Inductive WithdrawControl : Type := WithdrawButton | NoLocksNote.

Inductive SettleControl : Type :=
| SettleButton
| SettleCountdown (text : string).     (* "Settle possible in ..." *)

(** [ch.closedBlock!.add(settleTimeout).sub(currentBlock)] *)
Definition toSettle (closedBlock settleTimeout currentBlock : BN.t) : BN.t :=
  BN.sub (Z.add closedBlock settleTimeout) currentBlock.

(** [toSettle.lte(new BN(0))] *)
Definition canSettle (closedBlock settleTimeout currentBlock : BN.t) : bool :=
  Z.leb (toSettle closedBlock settleTimeout currentBlock) 0.

(** [Object.keys(ch.peerState.openLocks).length > 0] *)
Definition canWithdraw (openLocks : nat) : bool := (0 <? openLocks)%nat.

Definition closedControls (closedBlock settleTimeout currentBlock : BN.t) (openLocks : nat)
    : WithdrawControl * SettleControl :=
  (if canWithdraw openLocks then WithdrawButton else NoLocksNote,
   if canSettle closedBlock settleTimeout currentBlock then SettleButton
   else SettleCountdown
          ("Settle possible in " +:+
           BN.toString (toSettle closedBlock settleTimeout currentBlock))).

End ChannelView.

(** * Properties *)

(** ** Operators *)

Lemma run_app {S A B : Type} (step : S -> A -> S * list B) (s : S) (xs ys : list A) :
  Rx.run step s (xs ++ ys) =
    (fst (Rx.run step (fst (Rx.run step s xs)) ys),
     snd (Rx.run step s xs) ++ snd (Rx.run step (fst (Rx.run step s xs)) ys)).
Proof.
  revert s. induction xs as [|x xs IH]; intros s; simpl.
  - destruct (Rx.run step s ys); reflexivity.
  - destruct (step s x) as [s1 o1].
    rewrite IH. destruct (Rx.run step s1 xs) as [s2 o2]; simpl.
    destruct (Rx.run step s2 ys) as [s3 o3]; simpl.
    by rewrite app_assoc.
Qed.

Lemma run_one {S A B : Type} (step : S -> A -> S * list B) (s : S) (x : A) :
  Rx.run step s [x] = step s x.
Proof. simpl. destruct (step s x) as [s1 o1]. by rewrite app_nil_r. Qed.

(** ** Deduplication *)

Lemma isBalanceChanged_true (a b : AccountBalance) :
  isBalanceChanged a b = true <->
  wei a = wei b /\ gotToken a = gotToken b /\ hsToken a = hsToken b.
Proof.
  unfold isBalanceChanged, BN.eq; simpl.
  destruct (Z.eqb_spec (gotToken a) (gotToken b));
    destruct (Z.eqb_spec (hsToken a) (hsToken b));
    destruct (Z.eqb_spec (wei a) (wei b)); simpl; intuition congruence.
Qed.

Lemma compareFormatted_false (a b : AccountBalanceFormatted) :
  compareFormatted a b = false <-> quantitiesDiffer a b.
Proof.
  unfold compareFormatted, quantitiesDiffer.
  destruct (isBalanceChanged (bal a) (bal b)) eqn:E.
  - apply isBalanceChanged_true in E. intuition congruence.
  - split; [intros _|done].
    destruct (decide (wei (bal a) = wei (bal b))); [|by left].
    destruct (decide (gotToken (bal a) = gotToken (bal b))); [|by right; left].
    destruct (decide (hsToken (bal a) = hsToken (bal b))); [|by right; right].
    assert (isBalanceChanged (bal a) (bal b) = true) by by apply isBalanceChanged_true.
    congruence.
Qed.

Lemma compareFormatted_true (a b : AccountBalanceFormatted) :
  compareFormatted a b = true <-> ~ quantitiesDiffer a b.
Proof.
  rewrite <- compareFormatted_false.
  destruct (compareFormatted a b); intuition congruence.
Qed.

(** The key the operator holds is the last reading it emitted. *)
Lemma dedup_key_is_last (xs : list (option AccountBalanceFormatted))
    (k : option AccountBalanceFormatted) :
  fst (Rx.run dedupStep k xs) =
    match last (snd (Rx.run dedupStep k xs)) with
    | Some l => Some l
    | None => k
    end.
Proof.
  revert k. induction xs as [|x xs IH]; intros k; [done|].
  simpl. destruct (dedupStep k x) as [k1 o1] eqn:E.
  specialize (IH k1). destruct (Rx.run dedupStep k1 xs) as [k2 o2]; simpl in *.
  rewrite IH. rewrite last_app.
  destruct (last o2) as [l|]; [done|].
  unfold dedupStep, Rx.distinctUntilChanged in E.
  destruct x as [v|]; simpl in E; [|by inversion E].
  destruct k as [k0|]; [destruct (compareFormatted k0 v)|]; by inversion E.
Qed.

Lemma dedup_key_from_start (xs : list (option AccountBalanceFormatted)) :
  fst (Rx.run dedupStep None xs) = last (deduplicated xs).
Proof.
  rewrite dedup_key_is_last. unfold deduplicated.
  by destruct (last (snd (Rx.run dedupStep None xs))).
Qed.

Lemma deduplicated_snoc (xs : list (option AccountBalanceFormatted))
    (x : option AccountBalanceFormatted) :
  deduplicated (xs ++ [x]) = deduplicated xs ++ snd (dedupStep (last (deduplicated xs)) x).
Proof.
  unfold deduplicated at 1. rewrite run_app, run_one; simpl.
  rewrite dedup_key_from_start. reflexivity.
Qed.

(** C1: a reading delivered to the deduplicated per-account stream is emitted
    exactly when some quantity (wei, gotToken, hsToken) differs from the last
    emitted reading, and is suppressed exactly when all three equal it; the
    first reading, with nothing emitted before it, passes, and an undefined
    value never does. *)
Theorem dedup_emits_iff_changed
    (xs : list (option AccountBalanceFormatted)) (x : AccountBalanceFormatted) :
  (deduplicated (xs ++ [Some x]) = deduplicated xs ++ [x] <->
     match last (deduplicated xs) with
     | Some l => quantitiesDiffer l x
     | None => True
     end) /\
  (deduplicated (xs ++ [Some x]) = deduplicated xs <->
     match last (deduplicated xs) with
     | Some l => ~ quantitiesDiffer l x
     | None => False
     end) /\
  deduplicated (xs ++ [None]) = deduplicated xs.
Proof.
  rewrite !deduplicated_snoc.
  unfold dedupStep, Rx.distinctUntilChanged; simpl.
  assert (Hne : forall l : list AccountBalanceFormatted, l ++ [x] <> l).
  { intros l H. apply (f_equal length) in H. rewrite length_app in H. simpl in H. lia. }
  destruct (last (deduplicated xs)) as [l|]; simpl.
  - destruct (compareFormatted l x) eqn:E; simpl; rewrite ?app_nil_r.
    + apply compareFormatted_true in E. split_and!; [|done..].
      split; [intros H; symmetry in H; by apply Hne in H | done].
    + apply compareFormatted_false in E. split_and!; [done| |done].
      split; [intros H; by apply Hne in H | done].
  - rewrite app_nil_r. split_and!; [done| |done].
    split; [intros H; by apply Hne in H | done].
Qed.

(** ** Delta formatting *)

(** C2, as the code computes it: for previous = (wei=100, gotToken=5,
    hsToken=5) and new = (wei=150, gotToken=5, hsToken=3), whatever their
    block numbers, the pipeline emits the previous reading and then the new
    one with the delta record {eth: "+0", got: undefined, hs: "-2"}: the wei
    difference divided by 10^18 with the remainder dropped and a leading '+',
    the unchanged token written as undefined, the decreasing token with its
    own '-' and no '+'. *)
Theorem delta_example_integer_division (bn1 bn2 : Z) :
  let previous := format {| blockNumber := bn1; wei := 100; gotToken := 5; hsToken := 5 |} in
  let new := format {| blockNumber := bn2; wei := 150; gotToken := 5; hsToken := 3 |} in
  Balances.pipeEmissions [Balances.Src (Some previous); Balances.Src (Some new)] =
    [None; Some previous; Some (Balances.deltaView previous new)] /\
  delta (Balances.deltaView previous new) =
    <["eth" := Some "+0"]> (<["got" := None]> (<["hs" := Some "-2"]> ∅)).
Proof. split; reflexivity. Qed.

(** C2 as stated fails: the delta of the example is not
    {eth: "+0.00000000000000005", got: undefined, hs: "-2"}. *)
Lemma delta_example_not_fractional :
  let previous := format {| blockNumber := 1; wei := 100; gotToken := 5; hsToken := 5 |} in
  let new := format {| blockNumber := 2; wei := 150; gotToken := 5; hsToken := 3 |} in
  delta (Balances.deltaView previous new) <>
    <["eth" := Some "+0.00000000000000005"]> (<["got" := None]> (<["hs" := Some "-2"]> ∅)).
Proof.
  intros previous new H.
  apply (f_equal (fun d : DeltaRecord => d !! "eth")) in H.
  vm_compute in H. discriminate H.
Qed.

(** ** The handle's own balance stream *)

Lemma tracker_step_delta (s : Tracker.State) (i : Tracker.Input) :
  Forall (fun r => delta r = ∅) (snd (Tracker.step s i)).
Proof.
  destruct i as [bn|n q v]; simpl; [constructor|].
  destruct (Tracker.inflight s) as [b|]; [|constructor].
  destruct (n =? Tracker.batchNo s)%nat; [|constructor].
  destruct (Tracker.slot b q); [constructor|].
  destruct (Tracker.combine (Tracker.fill b q v)); repeat constructor.
Qed.

Lemma tracker_run_delta (ins : list Tracker.Input) (s : Tracker.State) :
  Forall (fun r => delta r = ∅) (snd (Rx.run Tracker.step s ins)).
Proof.
  revert s. induction ins as [|i ins IH]; intros s; simpl; [constructor|].
  pose proof (tracker_step_delta s i) as H.
  destruct (Tracker.step s i) as [s1 o1]. specialize (IH s1).
  destruct (Rx.run Tracker.step s1 ins) as [s2 o2]; simpl in *.
  by apply Forall_app.
Qed.

Lemma signKey_lookup_is_Some (d : DeltaRecord) (k k' : string) :
  is_Some (d !! k') -> is_Some (Balances.signKey d k !! k').
Proof.
  intros H. unfold Balances.signKey.
  destruct (d !! k) as [[s|]|] eqn:E; try done.
  destruct (Balances.truthy s && Balances.firstIsNotMinus s); [|done].
  destruct (decide (k = k')) as [->|Hne].
  - rewrite lookup_insert_eq. by eexists.
  - by rewrite lookup_insert_ne.
Qed.

Lemma deltaView_has_keys (a b : AccountBalanceFormatted) :
  is_Some (delta (Balances.deltaView a b) !! "eth").
Proof.
  unfold Balances.deltaView, Balances.signDelta; simpl.
  do 3 apply signKey_lookup_is_Some.
  unfold Balances.rawDelta. rewrite lookup_insert_eq. by eexists.
Qed.

(** C10: every reading of the handle's own balance stream carries the empty
    delta record, for any blocks and query results; a populated delta exists
    only on the view the merged balances pipeline builds, whose delta record
    is never empty. *)
Theorem handle_balance_delta_empty (ins : list Tracker.Input) :
  Forall (fun o : option AccountBalanceFormatted =>
            match o with Some r => delta r = ∅ | None => True end)
         (Tracker.stream ins) /\
  (forall a b : AccountBalanceFormatted, delta (Balances.deltaView a b) <> ∅).
Proof.
  split.
  - unfold Tracker.stream. constructor; [done|].
    apply Forall_fmap. eapply Forall_impl; [apply tracker_run_delta|]. done.
  - intros a b H. pose proof (deltaView_has_keys a b) as [v Hv].
    rewrite H, lookup_empty in Hv. discriminate.
Qed.

(** ** The merged balance map *)




Lemma sources_cons (x : Balances.PipeInput) (ins : list Balances.PipeInput) :
  Balances.sources (x :: ins) = Balances.sources [x] ++ Balances.sources ins.
Proof. unfold Balances.sources; simpl. by rewrite app_nil_r. Qed.






Lemma run_cons_fst {S A B : Type} (step : S -> A -> S * list B) (s : S) (x : A) (xs : list A) :
  fst (Rx.run step s (x :: xs)) = fst (Rx.run step (fst (step s x)) xs).
Proof. simpl. destruct (step s x) as [s1 o1]; simpl. by destruct (Rx.run step s1 xs). Qed.

Lemma run_cons_snd {S A B : Type} (step : S -> A -> S * list B) (s : S) (x : A) (xs : list A) :
  snd (Rx.run step s (x :: xs)) = snd (step s x) ++ snd (Rx.run step (fst (step s x)) xs).
Proof. simpl. destruct (step s x) as [s1 o1]; simpl. by destruct (Rx.run step s1 xs). Qed.

Lemma run_app_snd {S A B : Type} (step : S -> A -> S * list B) (s : S) (xs ys : list A) :
  snd (Rx.run step s (xs ++ ys)) =
    snd (Rx.run step s xs) ++ snd (Rx.run step (fst (Rx.run step s xs)) ys).
Proof. by rewrite run_app. Qed.







Lemma run_app_fst {S A B : Type} (step : S -> A -> S * list B) (s : S) (xs ys : list A) :
  fst (Rx.run step s (xs ++ ys)) = fst (Rx.run step (fst (Rx.run step s xs)) ys).
Proof. by rewrite run_app. Qed.









(** ** The message delivery proxy *)
Section ProxyFacts.

Context {SignedMessage Wire : Type}.
Variable serialize : SignedMessage -> Wire.

Lemma flush_transport (s : Proxy.State) :
  Proxy.transport (Proxy.flush serialize s) =
    Proxy.transport s ++ map (Proxy.rawSend serialize) (Proxy.messages s).
Proof.
  unfold Proxy.flush; simpl.
  generalize (Proxy.transport s). generalize (Proxy.messages s).
  induction l as [|tm l IH]; intros tr; simpl.
  - by rewrite app_nil_r.
  - rewrite IH. by rewrite <- app_assoc.
Qed.

(** C3: from any state of the proxy, after [setMode('manual')], three
    [send] calls and [flush], the raw send of the transport has been called
    exactly three more times, in the order of the [send] calls, with the hex
    form of each address and the serialized form of each message; no raw
    send happens during the three calls, each of which answers the resolved
    [false]; the pending queue holds the three pairs before the flush and is
    empty after it. *)
Theorem manual_sends_then_flush
    (s : Proxy.State) (t1 t2 t3 : Proxy.Address) (m1 m2 m3 : SignedMessage) :
  let s0 := Proxy.setMode serialize Proxy.manual s in
  let r1 := Proxy.send serialize t1 m1 s0 in
  let r2 := Proxy.send serialize t2 m2 (fst r1) in
  let r3 := Proxy.send serialize t3 m3 (fst r2) in
  let s4 := Proxy.flush serialize (fst r3) in
  (snd r1, snd r2, snd r3) = (Proxy.ResolvedFalse, Proxy.ResolvedFalse, Proxy.ResolvedFalse) /\
  Proxy.messages (fst r3) = [(t1, m1); (t2, m2); (t3, m3)] /\
  Proxy.transport (fst r3) = Proxy.transport s0 /\
  Proxy.transport s4 =
    Proxy.transport s0 ++
      [(Proxy.toHex t1, serialize m1); (Proxy.toHex t2, serialize m2);
       (Proxy.toHex t3, serialize m3)] /\
  Proxy.messages s4 = [].
Proof.
  intros s0 r1 r2 r3 s4.
  assert (Hr3 : Proxy.messages (fst r3) = [(t1, m1); (t2, m2); (t3, m3)] /\
                Proxy.transport (fst r3) = Proxy.transport s0) by (split; reflexivity).
  destruct Hr3 as [Hq Ht].
  split_and!; [reflexivity|exact Hq|exact Ht| |reflexivity].
  subst s4. rewrite flush_transport, Hq, Ht. reflexivity.
Qed.

End ProxyFacts.


(** ** The merged event log and the engine wiring *)
Section AggregatorFacts.

Context {ChainEvent Wire Decoded : Type}.
Variable deserializeAndDecode : Wire -> option Decoded.
Variable policy : Aggregator.EmitPolicy.

Local Abbreviation State := (@Aggregator.State ChainEvent Wire Decoded).
Local Abbreviation Input := (@Aggregator.Input ChainEvent Wire).
Local Abbreviation Event := (@Aggregator.Event ChainEvent Wire).
Local Abbreviation step := (Aggregator.step deserializeAndDecode policy).
Local Abbreviation run := (Aggregator.run deserializeAndDecode policy).
Local Abbreviation expected := (Aggregator.expectedEngineCalls deserializeAndDecode).

Lemma initAccount_wired : Aggregator.wired (Aggregator.initAccount : State).
Proof. split; reflexivity. Qed.

Lemma wired_logWired (s : State) : Aggregator.wired s -> Aggregator.logWired s.
Proof. intros [Hreg Hcon]. split; [by left|done]. Qed.

Lemma initAccount_logWired : Aggregator.logWired (Aggregator.initAccount : State).
Proof. apply wired_logWired, initAccount_wired. Qed.

Lemma wired_listeners (s : State) (f : Aggregator.EventSource) :
  Aggregator.registry s = Aggregator.wiring ->
  Aggregator.listeners f s =
    match f with
    | Aggregator.P2P => [Aggregator.MergedLog; Aggregator.EngineDriver; Aggregator.Logger]
    | _ => [Aggregator.MergedLog; Aggregator.EngineDriver]
    end.
Proof. intros H. unfold Aggregator.listeners. rewrite H. by destruct f. Qed.

Lemma logWired_listeners (s : State) :
  Aggregator.logWired s ->
  Aggregator.listeners Aggregator.Blockchain s =
    [Aggregator.MergedLog; Aggregator.EngineDriver] /\
  Aggregator.listeners Aggregator.P2P s =
    [Aggregator.MergedLog; Aggregator.EngineDriver; Aggregator.Logger] /\
  (Aggregator.listeners Aggregator.BlockNumber s =
     [Aggregator.MergedLog; Aggregator.EngineDriver] \/
   Aggregator.listeners Aggregator.BlockNumber s = [Aggregator.MergedLog]).
Proof.
  intros [[H|H] _]; unfold Aggregator.listeners; rewrite H;
    (split; [done|split; [done|]]); [by left|by right].
Qed.

(** A notification that can be wrapped reaches the log first, whatever the
    later listeners do. *)
Lemma arrive_log (s : State) (env : Aggregator.Env) (r : Aggregator.Raw) (e : Event) :
  Aggregator.logWired s ->
  Aggregator.wrap env r = Some e ->
  Aggregator.log (step s (Aggregator.Arrive env r)) = Aggregator.logNext e (Aggregator.log s) /\
  Aggregator.registry (step s (Aggregator.Arrive env r)) = Aggregator.registry s.
Proof.
  intros Hw He. unfold Aggregator.step.
  destruct (logWired_listeners s Hw) as (Hc & Hm & Hb).
  destruct r as [c|m|bn]; simpl Aggregator.feedOf.
  - rewrite Hc. cbn -[Aggregator.wrap]. by rewrite He.
  - rewrite Hm. cbn -[Aggregator.wrap]. rewrite He. simpl.
    destruct (deserializeAndDecode m) as [d|]; simpl; [done|]. by destruct policy.
  - destruct Hb as [Hb|Hb]; rewrite Hb; cbn -[Aggregator.wrap]; by rewrite He.
Qed.

(** With the wiring of the initialization it also reaches the engine, once,
    when it can be handed over. *)
Lemma arrive_effect (s : State) (env : Aggregator.Env) (r : Aggregator.Raw) (e : Event) :
  Aggregator.wired s ->
  Aggregator.wrap env r = Some e ->
  Aggregator.log (step s (Aggregator.Arrive env r)) = Aggregator.logNext e (Aggregator.log s) /\
  Aggregator.engine (step s (Aggregator.Arrive env r)) = Aggregator.engine s ++ expected r /\
  Aggregator.registry (step s (Aggregator.Arrive env r)) = Aggregator.registry s.
Proof.
  intros [Hreg Hcon] He. unfold Aggregator.step. rewrite (wired_listeners _ _ Hreg).
  destruct r as [c|m|bn]; cbn -[Aggregator.wrap]; rewrite He; simpl; [done| |done].
  destruct (deserializeAndDecode m) as [d|]; simpl; [done|].
  rewrite app_nil_r. by destruct policy.
Qed.

Lemma wraps_Some (env : Aggregator.Env) (r : Aggregator.Raw) :
  Aggregator.wraps (Aggregator.Arrive env r : Input) = true ->
  exists e : Event, Aggregator.wrap env r = Some e.
Proof. simpl. destruct (Aggregator.wrap env r) as [e|]; [by exists e|done]. Qed.

Lemma step_logWired (s : State) (i : Input) :
  Aggregator.logWired s -> Aggregator.wraps i = true -> Aggregator.logWired (step s i).
Proof.
  intros Hw Hi. destruct i as [env r|  |k].
  - destruct (wraps_Some env r Hi) as [e He].
    destruct (arrive_log s env r e Hw He) as (Hl & Hr).
    destruct Hw as [Hreg Hcon]. split; [by rewrite Hr|]. by rewrite Hl.
  - destruct Hw as [Hreg Hcon]. unfold Aggregator.step, Aggregator.subscribeEvents,
      Aggregator.logSubscribe. rewrite Hcon. by split.
  - destruct Hw as [Hreg Hcon]. split; [|done]. simpl.
    destruct (k =? 0)%nat; [|done].
    right. by destruct Hreg as [-> | ->].
Qed.

Lemma step_wired (s : State) (i : Input) :
  Aggregator.wired s -> Aggregator.wraps i = true -> i <> Aggregator.Detach 0 ->
  Aggregator.wired (step s i).
Proof.
  intros Hw Hi Hne. destruct i as [env r|  |k].
  - destruct (wraps_Some env r Hi) as [e He].
    destruct (arrive_effect s env r e Hw He) as (Hl & _ & Hr).
    destruct Hw as [Hreg Hcon]. split; [congruence|]. by rewrite Hl.
  - destruct Hw as [Hreg Hcon]. unfold Aggregator.step, Aggregator.subscribeEvents,
      Aggregator.logSubscribe. rewrite Hcon. by split.
  - destruct Hw as [Hreg Hcon]. split; [|done]. simpl.
    destruct k as [|k]; [done|]. done.
Qed.

Lemma wrapsAll_cons (i : Input) (ins : list Input) :
  Aggregator.wrapsAll (i :: ins) = true ->
  Aggregator.wraps i = true /\ Aggregator.wrapsAll ins = true.
Proof. unfold Aggregator.wrapsAll. simpl. by intros [? ?]%andb_prop. Qed.

Lemma wrapsAll_app (xs ys : list Input) :
  Aggregator.wrapsAll (xs ++ ys) = true ->
  Aggregator.wrapsAll xs = true /\ Aggregator.wrapsAll ys = true.
Proof. unfold Aggregator.wrapsAll. rewrite forallb_app. by intros [? ?]%andb_prop. Qed.

Lemma run_logWired (ins : list Input) (s : State) :
  Aggregator.logWired s -> Aggregator.wrapsAll ins = true -> Aggregator.logWired (run s ins).
Proof.
  revert s. induction ins as [|i ins IH]; intros s Hw Hall; [done|].
  apply wrapsAll_cons in Hall as [Hi Hall].
  simpl. apply IH; [|done]. by apply step_logWired.
Qed.

Lemma run_wired (ins : list Input) (s : State) :
  Aggregator.wired s -> Aggregator.wrapsAll ins = true ->
  ~ In (Aggregator.Detach 0) ins ->
  Aggregator.wired (run s ins).
Proof.
  revert s. induction ins as [|i ins IH]; intros s Hw Hall Hin; [done|].
  apply wrapsAll_cons in Hall as [Hi Hall].
  simpl. apply IH; [|done|intros H; apply Hin; by right].
  apply step_wired; [done..|]. intros ->. apply Hin. by left.
Qed.

Lemma eventsOf_cons (i : Input) (ins : list Input) :
  Aggregator.eventsOf (i :: ins) = Aggregator.eventsOf [i] ++ Aggregator.eventsOf ins.
Proof. unfold Aggregator.eventsOf; simpl. by rewrite app_nil_r. Qed.

Lemma eventsOf_app (xs ys : list Input) :
  Aggregator.eventsOf (xs ++ ys) = Aggregator.eventsOf xs ++ Aggregator.eventsOf ys.
Proof. unfold Aggregator.eventsOf. by rewrite flat_map_app. Qed.

Lemma eventsOf_arrive (env : Aggregator.Env) (r : Aggregator.Raw) (e : Event) :
  Aggregator.wrap env r = Some e ->
  Aggregator.eventsOf [Aggregator.Arrive env r] = [e].
Proof. intros He. unfold Aggregator.eventsOf. simpl. by rewrite He. Qed.

Lemma replayOf_snoc (h : list Event) (e : Event) :
  Aggregator.replayOf (h ++ [e]) = Some (h ++ [e]).
Proof. by destruct h. Qed.

(** While every notification can be wrapped, the accumulator is the list of
    everything that arrived, and the replay buffer holds it. *)
Lemma run_history (ins : list Input) (s : State) :
  Aggregator.logWired s ->
  Aggregator.wrapsAll ins = true ->
  Aggregator.replay (Aggregator.log s) = Aggregator.replayOf (Aggregator.history (Aggregator.log s)) ->
  Aggregator.history (Aggregator.log (run s ins)) =
    Aggregator.history (Aggregator.log s) ++ Aggregator.eventsOf ins /\
  Aggregator.replay (Aggregator.log (run s ins)) =
    Aggregator.replayOf (Aggregator.history (Aggregator.log (run s ins))).
Proof.
  revert s. induction ins as [|i ins IH]; intros s Hw Hall Hrep.
  - simpl. by rewrite app_nil_r.
  - apply wrapsAll_cons in Hall as [Hi Hall].
    rewrite eventsOf_cons. simpl Aggregator.run.
    destruct (IH (step s i)) as [IH1 IH2]; [by apply step_logWired|done| |].
    + destruct i as [env r| |k]; [|done..].
      destruct (wraps_Some env r Hi) as [e He].
      destruct (arrive_log s env r e Hw He) as (-> & _). simpl.
      by rewrite replayOf_snoc.
    + split; [|done]. rewrite IH1, app_assoc. f_equal.
      destruct i as [env r| |k]; [|by rewrite app_nil_r..].
      destruct (wraps_Some env r Hi) as [e He].
      destruct (arrive_log s env r e Hw He) as (-> & _).
      by rewrite (eventsOf_arrive env r e He).
Qed.

(** An attached subscriber is told every array the log builds. *)
Lemma attached_receives (post : list Input) (s : State) (k : nat) (o : Aggregator.Observer) :
  Aggregator.logWired s ->
  Aggregator.wrapsAll post = true ->
  Aggregator.observers (Aggregator.log s) !! k = Some o ->
  Aggregator.attached o = true ->
  ~ In (Aggregator.Detach k) post ->
  exists o',
    Aggregator.observers (Aggregator.log (run s post)) !! k = Some o' /\
    Aggregator.attached o' = true /\
    Aggregator.received o' =
      Aggregator.received o ++
        Aggregator.snapshots (Aggregator.history (Aggregator.log s)) (Aggregator.eventsOf post).
Proof.
  revert s o. induction post as [|i post IH]; intros s o Hw Hall Hk Ha Hin.
  - exists o. simpl. by rewrite app_nil_r.
  - apply wrapsAll_cons in Hall as [Hi Hall].
    assert (Hin' : ~ In (Aggregator.Detach k) post) by (intros H; apply Hin; by right).
    simpl Aggregator.run. rewrite eventsOf_cons.
    destruct i as [env r| |j].
    + destruct (wraps_Some env r Hi) as [e He].
      destruct (arrive_log s env r e Hw He) as (Hl & _).
      destruct (IH (step s (Aggregator.Arrive env r))
                   {| Aggregator.attached := true;
                      Aggregator.received := Aggregator.received o ++
                        [Aggregator.history (Aggregator.log s) ++ [e]] |})
        as (o' & H1 & H2 & H3); [by apply step_logWired|done| |done|done|].
      * rewrite Hl. simpl. rewrite list_lookup_fmap, Hk. simpl.
        unfold Aggregator.notify. by rewrite Ha.
      * exists o'. split_and!; [done..|]. rewrite H3, Hl.
        rewrite (eventsOf_arrive env r e He). simpl.
        by rewrite <- app_assoc.
    + destruct (IH (step s Aggregator.Attach) o) as (o' & H1 & H2 & H3);
        [by apply step_logWired|done| |done|done|].
      * simpl. unfold Aggregator.subscribeEvents. simpl. by apply lookup_app_l_Some.
      * exists o'. split_and!; [done..|]. by rewrite H3.
    + assert (j <> k) by (intros ->; apply Hin; by left).
      destruct (IH (step s (Aggregator.Detach j)) o) as (o' & H1 & H2 & H3);
        [by apply step_logWired|done| |done|done|].
      * simpl. by rewrite list_lookup_alter_ne.
      * exists o'. split_and!; [done..|]. by rewrite H3.
Qed.

Lemma run_app_state (xs ys : list Input) (s : State) :
  run s (xs ++ ys) = run (run s xs) ys.
Proof. unfold Aggregator.run. by rewrite fold_left_app. Qed.

(** X22: in a run in which every notification can be wrapped, a
    subscriber attaching after the events of [pre] have been appended is
    handed, at once, the array of all of them in append order (nothing when
    there are none yet), and then one array per later event, each the full
    history so far in append order; the log itself holds every event that
    arrived.  This holds while the subscriber stays attached. *)
Theorem late_subscriber_gets_history (pre post : list Input) :
  Aggregator.wrapsAll (pre ++ post) = true ->
  let k := length (Aggregator.observers (Aggregator.log (run Aggregator.initAccount pre))) in
  ~ In (Aggregator.Detach k) post ->
  let s := run Aggregator.initAccount (pre ++ Aggregator.Attach :: post) in
  Aggregator.history (Aggregator.log s) =
    Aggregator.eventsOf pre ++ Aggregator.eventsOf post /\
  exists o,
    Aggregator.observers (Aggregator.log s) !! k = Some o /\
    Aggregator.attached o = true /\
    Aggregator.received o =
      match Aggregator.eventsOf pre with [] => [] | h => [h] end ++
      Aggregator.snapshots (Aggregator.eventsOf pre) (Aggregator.eventsOf post).
Proof.
  intros Hall k Hin s.
  apply wrapsAll_app in Hall as [Hpre Hpost].
  destruct (run_history pre Aggregator.initAccount initAccount_logWired Hpre eq_refl) as [Hh Hr].
  simpl in Hh.
  pose proof (run_logWired pre _ initAccount_logWired Hpre) as Hw1.
  set (s1 := run Aggregator.initAccount pre) in *.
  assert (Hw2 : Aggregator.logWired (step s1 Aggregator.Attach)) by by apply step_logWired.
  assert (Hs : s = run (step s1 Aggregator.Attach) post).
  { subst s. by rewrite run_app_state. }
  split.
  - rewrite Hs.
    destruct (run_history post (step s1 Aggregator.Attach) Hw2 Hpost) as [H _].
    { simpl. unfold Aggregator.subscribeEvents. simpl. exact Hr. }
    rewrite H. simpl. unfold Aggregator.subscribeEvents. simpl. by rewrite Hh.
  - rewrite Hs.
    destruct (attached_receives post (step s1 Aggregator.Attach) k
                {| Aggregator.attached := true;
                   Aggregator.received :=
                     match Aggregator.replay (Aggregator.log s1) with
                     | Some h => [h] | None => [] end |})
      as (o & H1 & H2 & H3); [done|done| |done|done|].
    + simpl. unfold Aggregator.subscribeEvents. simpl. subst k. by apply list_lookup_middle.
    + exists o. split_and!; [done..|]. rewrite H3. simpl.
      unfold Aggregator.subscribeEvents. simpl. rewrite Hr, Hh.
      by destruct (Aggregator.eventsOf pre).
Qed.

Lemma run_engine (ins : list Input) (s : State) :
  Aggregator.wired s ->
  Aggregator.wrapsAll ins = true ->
  ~ In (Aggregator.Detach 0) ins ->
  Aggregator.engine (run s ins) =
    Aggregator.engine s ++ flat_map expected (Aggregator.arrivals ins).
Proof.
  revert s. induction ins as [|i ins IH]; intros s Hw Hall Hin.
  - simpl. by rewrite app_nil_r.
  - apply wrapsAll_cons in Hall as [Hi Hall].
    assert (Hne : i <> Aggregator.Detach 0) by (intros ->; apply Hin; by left).
    simpl Aggregator.run.
    rewrite IH; [|by apply step_wired|done|intros H; apply Hin; by right].
    destruct i as [env r| |j].
    + destruct (wraps_Some env r Hi) as [e He].
      destruct (arrive_effect s env r e Hw He) as (_ & -> & _).
      simpl. by rewrite <- app_assoc.
    + done.
    + done.
Qed.

(** C5, as the code behaves by design: in a run in which every
    notification can be wrapped and the internal subscription of the log
    stands, whatever number of consumers attach to or leave the merged log,
    and whenever they do, the log holds exactly one registration on each
    raw feed, the registrations on the feeds are those made at
    initialization, and the engine has been called once per block number
    ([onBlock]), once per on-chain event ([onBlockchainEvent]) and once per
    peer message that decodes ([onMessage]), in arrival order, with no call
    for a message whose decoding fails. *)
Theorem engine_calls_independent_of_subscribers (ins : list Input) :
  Aggregator.wrapsAll ins = true ->
  ~ In (Aggregator.Detach 0) ins ->
  let s := run Aggregator.initAccount ins in
  (forall f, Aggregator.logSubscriptions f s = 1%nat) /\
  Aggregator.registry s = Aggregator.registry (Aggregator.initAccount : State) /\
  Aggregator.engine s = flat_map expected (Aggregator.arrivals ins).
Proof.
  intros Hall Hin s.
  destruct (run_wired ins _ initAccount_wired Hall Hin) as [Hreg _]. fold s in Hreg.
  split_and!.
  - intros f. unfold Aggregator.logSubscriptions. rewrite Hreg. by destruct f.
  - by rewrite Hreg.
  - subst s. by rewrite run_engine; [|apply initAccount_wired|done|done].
Qed.

(** What the ['callback-error'] handler writes, and what leaves the
    emitter, when both ['message-received'] listeners of lines 197 and 199
    throw on the message [m]. *)
Local Abbreviation warnings :=
  (fun m : Wire =>
     match policy with
     | Aggregator.IsolateEach => [Aggregator.WarnEmitError m; Aggregator.WarnEmitError m]
     | Aggregator.AbortEmit => [Aggregator.WarnEmitError m]
     | Aggregator.Propagate => []
     end : list (@Aggregator.Console Wire Decoded)).

Local Abbreviation leaving :=
  (fun m : Wire =>
     match policy with
     | Aggregator.Propagate => [Aggregator.RawMessage m]
     | _ => []
     end : list (@Aggregator.Raw ChainEvent Wire)).

(** C8, as the code behaves: a peer message whose decoding fails, in a run
    in which every notification can be wrapped, causes no engine call and
    is nevertheless appended to the merged log as a P2P event holding the
    raw message.  The source does not catch the exception of the decoder:
    an emitter that reports listener exceptions through ['callback-error']
    has it written by the handler of line 204, once per listener that
    threw, and lets nothing leave; from a propagating emitter the exception
    leaves unwritten.  In every case each later event is appended to the
    log and told to each attached subscriber. *)
Theorem malformed_message_reaches_log_not_engine
    (pre post : list Input) (env : Aggregator.Env) (m : Wire) :
  Aggregator.wrapsAll (pre ++ Aggregator.Arrive env (Aggregator.RawMessage m) :: post) = true ->
  deserializeAndDecode m = None ->
  let s := run Aggregator.initAccount pre in
  let s' := step s (Aggregator.Arrive env (Aggregator.RawMessage m)) in
  Aggregator.engine s' = Aggregator.engine s /\
  (exists e,
     Aggregator.history (Aggregator.log s') = Aggregator.history (Aggregator.log s) ++ [e] /\
     Aggregator.source e = Aggregator.P2P /\
     Aggregator.event e = Aggregator.WirePayload m) /\
  Aggregator.console s' = Aggregator.console s ++ warnings m /\
  Aggregator.escaped s' = Aggregator.escaped s ++ leaving m /\
  Aggregator.history (Aggregator.log (run s' post)) =
    Aggregator.history (Aggregator.log s') ++ Aggregator.eventsOf post /\
  forall k o,
    Aggregator.observers (Aggregator.log s') !! k = Some o ->
    Aggregator.attached o = true ->
    ~ In (Aggregator.Detach k) post ->
    exists o',
      Aggregator.observers (Aggregator.log (run s' post)) !! k = Some o' /\
      Aggregator.received o' =
        Aggregator.received o ++
          Aggregator.snapshots (Aggregator.history (Aggregator.log s'))
                               (Aggregator.eventsOf post).
Proof.
  intros Hall Hbad s s'.
  apply wrapsAll_app in Hall as [Hpre Hall].
  apply wrapsAll_cons in Hall as [Hm Hpost].
  pose proof (run_logWired pre _ initAccount_logWired Hpre) as Hw. fold s in Hw.
  assert (Hw' : Aggregator.logWired s') by by apply step_logWired.
  destruct (run_history pre Aggregator.initAccount initAccount_logWired Hpre eq_refl)
    as [_ Hrep].
  fold s in Hrep.
  destruct (wraps_Some env _ Hm) as [e He].
  assert (Hstep : Aggregator.engine s' = Aggregator.engine s /\
                  Aggregator.console s' = Aggregator.console s ++ warnings m /\
                  Aggregator.escaped s' = Aggregator.escaped s ++ leaving m /\
                  Aggregator.log s' = Aggregator.logNext e (Aggregator.log s)).
  { subst s'. unfold Aggregator.step.
    simpl Aggregator.feedOf. rewrite (proj1 (proj2 (logWired_listeners s Hw))).
    cbn -[Aggregator.wrap]. rewrite He. simpl. rewrite Hbad.
    destruct policy; simpl; rewrite ?Hbad; simpl;
      split_and!; try done; by rewrite <- ?app_assoc, ?app_nil_r. }
  destruct Hstep as (Hen & Hc & Hesc & Hl).
  split_and!; [done| |done|done| |].
  - exists e. split; [by rewrite Hl|].
    simpl in He. destruct (Aggregator.blockNumberNow env); [|done].
    by injection He as <-.
  - apply run_history; [done|done|]. rewrite Hl. simpl. by rewrite replayOf_snoc.
  - intros k o Hk Ha Hin.
    destruct (attached_receives post s' k o Hw' Hpost Hk Ha Hin) as (o' & H1 & _ & H3).
    by exists o'.
Qed.

End AggregatorFacts.

(** [late_subscriber_gets_history] with two events before the subscriber
    attaches and one after. *)
Lemma late_subscriber_gets_history_witness :
  let pre : list (@Aggregator.Input string string) :=
    [Aggregator.Arrive {| Aggregator.now := 10; Aggregator.blockNow := Some 7 |}
                       (Aggregator.RawBlock 7);
     Aggregator.Arrive {| Aggregator.now := 11; Aggregator.blockNow := Some 7 |}
                       (Aggregator.RawMessage "{hi}")] in
  let post : list (@Aggregator.Input string string) :=
    [Aggregator.Arrive {| Aggregator.now := 12; Aggregator.blockNow := Some 7 |}
                       (Aggregator.RawChain "Deposit")] in
  let s := Aggregator.run Aggregator.sampleDecode Aggregator.IsolateEach
             Aggregator.initAccount (pre ++ Aggregator.Attach :: post) in
  Aggregator.wrapsAll (pre ++ post) = true /\
  ~ In (Aggregator.Detach 1) post /\
  exists o,
    Aggregator.observers (Aggregator.log s) !! 1%nat = Some o /\
    Aggregator.attached o = true /\
    Aggregator.received o =
      [Aggregator.eventsOf pre] ++
      Aggregator.snapshots (Aggregator.eventsOf pre) (Aggregator.eventsOf post).
Proof.
  intros pre post s.
  assert (H : ~ In (Aggregator.Detach 1) post) by (simpl; intros [H|[]]; discriminate H).
  split; [reflexivity|]. split; [exact H|].
  exact (proj2 (late_subscriber_gets_history Aggregator.sampleDecode Aggregator.IsolateEach
                  pre post eq_refl H)).
Defined.

(** C4 at two failing inputs.  First: a consumer is attached; a peer
    message arrives while the monitor knows no block number yet, so the
    [map] callback of line 174 throws; then block 7 and an on-chain event
    arrive, a second consumer attaches, and a second on-chain event
    arrives.  Whatever the transport's emitter does with the exception: the
    message is in no log; the first consumer, attached all along, was told
    nothing and is cut off; block 7 and the first on-chain event are in no
    log either; the late consumer is handed no history, only the last
    event.  Second: block 7 and a peer message are logged, then a block
    number that [toNumber()] refuses arrives (line 184); the consumer
    attaching afterwards is handed neither of the two logged events. *)
Lemma merged_log_ends_when_wrapping_throws (p : Aggregator.EmitPolicy) :
  let message : @Aggregator.Input string string :=
    Aggregator.Arrive {| Aggregator.now := 10; Aggregator.blockNow := None |}
                      (Aggregator.RawMessage "{hi}") in
  let block := Aggregator.Arrive {| Aggregator.now := 11; Aggregator.blockNow := Some 7 |}
                                 (Aggregator.RawBlock 7) in
  let deposit := Aggregator.Arrive {| Aggregator.now := 12; Aggregator.blockNow := Some 7 |}
                                   (Aggregator.RawChain "Deposit") in
  let transfer := Aggregator.Arrive {| Aggregator.now := 13; Aggregator.blockNow := Some 7 |}
                                    (Aggregator.RawChain "Transfer") in
  let big := Aggregator.Arrive {| Aggregator.now := 14; Aggregator.blockNow := Some 7 |}
                               (Aggregator.RawBlock (2 ^ 53)) in
  let before := Aggregator.run Aggregator.sampleDecode p Aggregator.initAccount
                  [Aggregator.Attach; message; block; deposit] in
  let s := Aggregator.run Aggregator.sampleDecode p Aggregator.initAccount
             [Aggregator.Attach; message; block; deposit; Aggregator.Attach; transfer] in
  let logged := Aggregator.run Aggregator.sampleDecode p Aggregator.initAccount
                  [block; deposit] in
  let s' := Aggregator.run Aggregator.sampleDecode p Aggregator.initAccount
              [block; deposit; big; Aggregator.Attach; transfer] in
  Aggregator.wraps message = false /\
  Aggregator.history (Aggregator.log before) = [] /\
  Aggregator.replay (Aggregator.log before) = None /\
  Aggregator.observers (Aggregator.log s) =
    [ {| Aggregator.attached := false; Aggregator.received := [] |};
      {| Aggregator.attached := false; Aggregator.received := [] |};
      {| Aggregator.attached := true;
         Aggregator.received := [Aggregator.eventsOf [transfer]] |} ] /\
  Aggregator.history (Aggregator.log s) = Aggregator.eventsOf [transfer] /\
  Aggregator.wraps big = false /\
  Aggregator.history (Aggregator.log logged) = Aggregator.eventsOf [block; deposit] /\
  Aggregator.observers (Aggregator.log s') !! 1%nat =
    Some {| Aggregator.attached := true;
            Aggregator.received := [Aggregator.eventsOf [transfer]] |} /\
  Aggregator.history (Aggregator.log s') = Aggregator.eventsOf [transfer].
Proof.
  intros message block deposit transfer big before s logged s'.
  destruct p; by vm_compute.
Qed.

(** [engine_calls_independent_of_subscribers] with a consumer coming and
    going between a block number and a peer message. *)
Lemma engine_calls_independent_of_subscribers_witness :
  let ins : list (@Aggregator.Input string string) :=
    [Aggregator.Arrive {| Aggregator.now := 10; Aggregator.blockNow := Some 7 |}
                       (Aggregator.RawBlock 7);
     Aggregator.Attach;
     Aggregator.Arrive {| Aggregator.now := 11; Aggregator.blockNow := Some 7 |}
                       (Aggregator.RawMessage "{hi}");
     Aggregator.Detach 1] in
  let s := Aggregator.run Aggregator.sampleDecode Aggregator.IsolateEach
             Aggregator.initAccount ins in
  Aggregator.wrapsAll ins = true /\
  ~ In (Aggregator.Detach 0) ins /\
  (forall f, Aggregator.logSubscriptions f s = 1%nat) /\
  Aggregator.engine s = [Aggregator.OnBlock 7; Aggregator.OnMessage "{hi}"].
Proof.
  intros ins s.
  assert (Hin : ~ In (Aggregator.Detach 0) ins)
    by (simpl; intros [H|[H|[H|[H|[]]]]]; discriminate H).
  pose proof (engine_calls_independent_of_subscribers (ChainEvent := string)
                Aggregator.sampleDecode Aggregator.IsolateEach ins eq_refl Hin) as (H1 & _ & H3).
  split; [reflexivity|]. split; [exact Hin|]. split; [exact H1|exact H3].
Defined.

(** C5 as stated fails: a peer message whose decoding fails is an event of
    the inbound-message feed for which no engine callback is called. *)
Lemma undecodable_message_calls_no_engine_callback :
  let ins : list (@Aggregator.Input string string) :=
    [Aggregator.Arrive {| Aggregator.now := 10; Aggregator.blockNow := Some 7 |}
                       (Aggregator.RawMessage "garbage")] in
  Aggregator.arrivals ins = [Aggregator.RawMessage "garbage"] /\
  Aggregator.wrapsAll ins = true /\
  Aggregator.engine (Aggregator.run Aggregator.sampleDecode Aggregator.IsolateEach
                       Aggregator.initAccount ins) = [] /\
  Aggregator.engine (Aggregator.run Aggregator.sampleDecode Aggregator.AbortEmit
                       Aggregator.initAccount ins) = [] /\
  Aggregator.engine (Aggregator.run Aggregator.sampleDecode Aggregator.Propagate
                       Aggregator.initAccount ins) = [].
Proof. intros ins. split_and!; reflexivity. Qed.

(** [malformed_message_reaches_log_not_engine] at a fresh account, the
    message ["garbage"] and a block number after it. *)
Lemma malformed_message_reaches_log_not_engine_witness :
  let env := {| Aggregator.now := 10; Aggregator.blockNow := Some 7 |} in
  let post : list (@Aggregator.Input string string) :=
    [Aggregator.Arrive {| Aggregator.now := 11; Aggregator.blockNow := Some 8 |}
                       (Aggregator.RawBlock 8)] in
  let s : @Aggregator.State string string string := Aggregator.initAccount in
  let s' := Aggregator.step Aggregator.sampleDecode Aggregator.AbortEmit s
              (Aggregator.Arrive env (Aggregator.RawMessage "garbage")) in
  Aggregator.wrapsAll (Aggregator.Arrive env (Aggregator.RawMessage "garbage") :: post) = true /\
  Aggregator.sampleDecode "garbage" = None /\
  Aggregator.engine s' = [] /\
  Aggregator.console s' = [Aggregator.WarnEmitError "garbage"] /\
  Aggregator.escaped s' = [] /\
  Aggregator.history
    (Aggregator.log (Aggregator.run Aggregator.sampleDecode Aggregator.AbortEmit s' post)) =
    Aggregator.history (Aggregator.log s') ++ Aggregator.eventsOf post.
Proof.
  intros env post s s'.
  pose proof (malformed_message_reaches_log_not_engine (ChainEvent := string)
                Aggregator.sampleDecode Aggregator.AbortEmit [] post env "garbage"
                eq_refl eq_refl) as (H1 & _ & H3 & H4 & H5 & _).
  split; [reflexivity|]. split; [reflexivity|].
  split; [exact H1|]. split; [exact H3|]. split; [exact H4|exact H5].
Defined.

(** C8 as stated fails: the message that cannot be decoded is not dropped,
    it stands in the merged log as a P2P event and is told to the
    subscribers, whatever the transport's emitter does with the exception;
    and nothing in the source keeps the exception from leaving an emitter
    that propagates it. *)
Lemma malformed_message_is_logged_as_event :
  let env := {| Aggregator.now := 10; Aggregator.blockNow := Some 7 |} in
  let garbage : @Aggregator.Input string string :=
    Aggregator.Arrive env (Aggregator.RawMessage "garbage") in
  let logged : @Aggregator.Event string string :=
    {| Aggregator.at_ := 10; Aggregator.block := Some 7;
       Aggregator.source := Aggregator.P2P;
       Aggregator.event := Aggregator.WirePayload "garbage" |} in
  Aggregator.sampleDecode "garbage" = None /\
  (forall p,
     Aggregator.history
       (Aggregator.log (Aggregator.run Aggregator.sampleDecode p
                          Aggregator.initAccount [garbage])) = [logged]) /\
  Aggregator.escaped (Aggregator.run Aggregator.sampleDecode Aggregator.Propagate
                        Aggregator.initAccount [garbage]) =
    [Aggregator.RawMessage "garbage"] /\
  Aggregator.console (Aggregator.run Aggregator.sampleDecode Aggregator.Propagate
                        Aggregator.initAccount [garbage]) = [].
Proof. intros env garbage logged. split_and!; [done|by intros []|done..]. Qed.


(** ** The readiness gate *)

Ltac ready_close :=
  rewrite ?orb_false_r, ?orb_true_r;
  repeat split; intros; try reflexivity; try assumption; try congruence; auto;
  try (apply orb_true_intro; left; auto; fail).

Lemma snoc_not_nil {X : Type} (l : list X) (x : X) : l ++ [x] <> [].
Proof. by destruct l. Qed.

Lemma ready_step (s : Ready.State) (i : Ready.Input) (c1 c2 c3 : bool) :
  Ready.accounted s c1 c2 c3 ->
  Ready.accounted (fst (Ready.step s i))
    (c1 || Ready.isConnected i) (c2 || Ready.isBlockNumber i) (c3 || Ready.isBalance i) /\
  (snd (Ready.step s i) <> [] ->
   c1 || Ready.isConnected i = true /\
   c2 || Ready.isBlockNumber i = true /\
   c3 || Ready.isBalance i = true).
Proof.
  destruct s as [[l1 l2 l3 f1 f2 f3 c] t s2 s3].
  unfold Ready.accounted; simpl. intros (H1 & H2 & H3).
  destruct i as [status|bn| |w|]; simpl;
    unfold Ready.next1, Ready.next2, Ready.next3, Ready.checkIterators,
      Ready.complete1, Ready.complete2, Ready.complete3, Ready.fail, Ready.close; simpl;
    repeat (case_match; simpl in * );
    try match goal with H : _ ++ [_] = [] |- _ => by apply snoc_not_nil in H end;
    simplify_eq; simpl in *;
    try match goal with H : _ && _ = true |- _ => apply andb_prop in H as [-> _] end;
    ready_close.
Qed.

Lemma ready_run (ins : list Ready.Input) (s : Ready.State) (c1 c2 c3 : bool) :
  Ready.accounted s c1 c2 c3 ->
  snd (Rx.run Ready.step s ins) <> [] ->
  c1 || existsb Ready.isConnected ins = true /\
  c2 || existsb Ready.isBlockNumber ins = true /\
  c3 || existsb Ready.isBalance ins = true.
Proof.
  revert s c1 c2 c3. induction ins as [|i ins IH]; intros s c1 c2 c3 Hacc Hout; [done|].
  rewrite run_cons_snd in Hout.
  destruct (ready_step s i c1 c2 c3 Hacc) as [Hacc' Hnow].
  simpl existsb. rewrite !orb_assoc.
  destruct (snd (Ready.step s i)) as [|h out1] eqn:E.
  - simpl in Hout. exact (IH _ _ _ _ Hacc' Hout).
  - destruct Hnow as (-> & -> & ->); done.
Qed.

(** C6: whatever happens around the gate, the returned observable has
    emitted the handle only if the transport has reported 'connected', the
    block number fetch has resolved and the balance fetch has resolved; since
    this holds of every run, it holds at the moment of the emission.  In
    particular, while no 'connected' status has been reported the handle is
    not emitted, whatever the two fetches do. *)
Theorem handle_resolves_only_when_all_ready (ins : list Ready.Input) :
  (Ready.resolved ins <> [] ->
     existsb Ready.isConnected ins = true /\
     existsb Ready.isBlockNumber ins = true /\
     existsb Ready.isBalance ins = true) /\
  (Forall (fun i => Ready.isConnected i = false) ins -> Ready.resolved ins = []).
Proof.
  assert (H : Ready.resolved ins <> [] ->
              existsb Ready.isConnected ins = true /\
              existsb Ready.isBlockNumber ins = true /\
              existsb Ready.isBalance ins = true).
  { intros Hout. apply (ready_run ins Ready.init false false false); [|exact Hout].
    unfold Ready.accounted; simpl. by split_and!. }
  split; [exact H|].
  intros Hnever. destruct (Ready.resolved ins) as [|h out] eqn:E; [done|].
  destruct H as [Hc _]; [done|].
  apply existsb_exists in Hc as (i & Hi & Hci).
  rewrite Forall_forall in Hnever. apply list_elem_of_In in Hi.
  rewrite (Hnever i Hi) in Hci. discriminate.
Qed.

(** [handle_resolves_only_when_all_ready] on a run that resolves and on a
    run whose transport never connects. *)
Lemma handle_resolves_only_when_all_ready_witness :
  let ok := [Ready.BalanceResolved 5; Ready.StatusChanged "connecting";
             Ready.BlockNumberResolved 9; Ready.StatusChanged "connected"] in
  let never := [Ready.BalanceResolved 5; Ready.BlockNumberResolved 9;
                Ready.StatusChanged "connecting"; Ready.StatusChanged "disconnected"] in
  Ready.resolved ok = [Ready.Handle] /\
  (existsb Ready.isConnected ok = true /\
   existsb Ready.isBlockNumber ok = true /\
   existsb Ready.isBalance ok = true) /\
  Forall (fun i => Ready.isConnected i = false) never /\
  Ready.resolved never = [].
Proof.
  intros ok never.
  assert (Hok : Ready.resolved ok = [Ready.Handle]) by reflexivity.
  assert (Hnever : Forall (fun i => Ready.isConnected i = false) never)
    by (repeat constructor).
  split; [exact Hok|]. split.
  - apply (proj1 (handle_resolves_only_when_all_ready ok)). rewrite Hok. discriminate.
  - split; [exact Hnever|].
    exact (proj2 (handle_resolves_only_when_all_ready never) Hnever).
Defined.


(** ** The session manager *)
Section SessionFacts.

Variable privateToAddress : string -> option string.

Local Abbreviation toAccount := (Session.toAccount privateToAddress).
Local Abbreviation chosen := (Session.chosen privateToAddress).
Local Abbreviation step := (Session.step privateToAddress).
Local Abbreviation ends := (Session.ends privateToAddress).
Local Abbreviation run := (Session.run privateToAddress).
Local Abbreviation ended := (Session.ended privateToAddress).

Lemma notInited_spec (l : list Session.Account) (a : Session.UserAccount) :
  Session.notInited l a = true <->
  forall i, i ∈ l -> Session.addressStr (Session.owner i) <> Session.address a.
Proof.
  unfold Session.notInited. rewrite negb_true_iff.
  split.
  - intros H i Hi Heq.
    assert (existsb (fun i => String.eqb (Session.addressStr (Session.owner i))
                                         (Session.address a)) l = true); [|congruence].
    apply existsb_exists. exists i. split; [by apply list_elem_of_In|].
    by apply String.eqb_eq.
  - intros H. destruct (existsb _ l) eqn:E; [|done].
    apply existsb_exists in E as (i & Hi & Heq).
    apply String.eqb_eq in Heq. apply list_elem_of_In in Hi. by destruct (H i Hi).
Qed.

Lemma newEntries_filter (s : Session.State) (cfg : Session.UserSession) :
  filter (Session.notInited (Session.inited s)) (Session.userAccounts cfg) =
    Session.newEntries s cfg.
Proof.
  unfold Session.newEntries. apply list_filter_iff. intros a.
  rewrite Is_true_true, notInited_spec. split.
  - intros H Hin. apply list_elem_of_fmap in Hin as (i & Heq & Hi). by apply (H i Hi).
  - intros H i Hi Heq. apply H. apply list_elem_of_fmap. by exists i.
Qed.

(** A property every input keeps is kept by every run, ended or not. *)
Lemma session_run_keeps (P : Session.State -> Prop) :
  (forall s i, P s -> P (step s i)) ->
  forall ins s, P s -> P (run s ins).
Proof.
  intros Hstep. induction ins as [|i ins IH]; intros s Hs; [done|].
  simpl. destruct (ends s i); [by apply Hstep|]. apply IH. by apply Hstep.
Qed.

Lemma session_run_cons (i : Session.Input) (ins : list Session.Input) (s : Session.State) :
  run s (i :: ins) = if ends s i then step s i else run (step s i) ins.
Proof. reflexivity. Qed.

Lemma session_ended_cons (i : Session.Input) (ins : list Session.Input) (s : Session.State) :
  ended s (i :: ins) = ends s i || ended (step s i) ins.
Proof. reflexivity. Qed.

Lemma session_ended_app (xs ys : list Session.Input) (s : Session.State) :
  ended s (xs ++ ys) = ended s xs || ended (run s xs) ys.
Proof.
  revert s. induction xs as [|i xs IH]; intros s; [done|].
  simpl. destruct (ends s i); [done|]. simpl. apply IH.
Qed.

Lemma session_run_app (xs ys : list Session.Input) (s : Session.State) :
  run s (xs ++ ys) = if ended s xs then run s xs else run (run s xs) ys.
Proof.
  revert s. induction xs as [|i xs IH]; intros s; [done|].
  simpl. destruct (ends s i); [done|]. simpl. apply IH.
Qed.

Lemma ended_pending (ins : list Session.Input) (s : Session.State) :
  ended s ins = true -> Session.pending (run s ins) = [].
Proof.
  revert s. induction ins as [|i ins IH]; intros s; [done|].
  simpl. destruct (ends s i) eqn:E; simpl; [intros _|by apply IH].
  destruct i as [cfg|k|k]; simpl in *.
  - unfold Session.chosen in *. by destruct (mapM _ _).
  - done.
  - by destruct (Session.pending s !! k).
Qed.

(** Resolutions call no initializer, do not end the manager and move
    handles from the pending list to the initialized list. *)
Lemma resolutions_run (rs : list Session.Input) (s : Session.State) :
  Forall Session.isResolution rs ->
  ended s rs = false /\
  Session.initCalls (run s rs) = Session.initCalls s /\
  Session.inited (run s rs) ++ Session.pending (run s rs) ≡ₚ
    Session.inited s ++ Session.pending s.
Proof.
  revert s. induction rs as [|r rs IH]; intros s Hrs; [done|].
  apply Forall_cons in Hrs as [Hr Hrs]. destruct r as [cfg|k|k]; [done| |done].
  change (run s (Session.InitResolved k :: rs))
    with (run (step s (Session.InitResolved k)) rs).
  change (ended s (Session.InitResolved k :: rs))
    with (ended (step s (Session.InitResolved k)) rs).
  destruct (IH (step s (Session.InitResolved k)) Hrs) as (IH0 & IH1 & IH2).
  split; [exact IH0|]. rewrite IH1, IH2. clear.
  simpl. destruct (Session.pending s !! k) as [a|] eqn:Ek; [simpl|done].
  split; [done|].
  rewrite <- app_assoc. simpl. apply Permutation_app_head.
  symmetry. by apply delete_Permutation.
Qed.

(** C7, as the code behaves: at a configuration change the manager calls
    the initializer on exactly the entries of the configuration whose
    address string is the address string of no account that has finished
    initializing, once per such entry and in their order, on the identity
    [toAccount] makes of each; when [toAccount] throws on one of them the
    manager ends without a call.  A resolving or failing initialization
    calls no initializer, and once the manager has ended nothing more is
    handled.  So for a configuration [A, B] whose two initializations have
    resolved, then updated to [A, B, C] with C's address different from
    both, the initializer has been called three times in all, once each
    for A, B and C, the update itself adding the single call for C. *)
Theorem initializer_called_on_new_addresses_only :
  (forall (s : Session.State) (cfg : Session.UserSession),
     (forall bases,
        Forall2 (fun a b => toAccount a = Some b) (Session.newEntries s cfg) bases ->
        ends s (Session.Config cfg) = false /\
        Session.initCalls (step s (Session.Config cfg)) = Session.initCalls s ++ bases) /\
     (Exists (fun a => toAccount a = None) (Session.newEntries s cfg) ->
        ends s (Session.Config cfg) = true /\
        Session.initCalls (step s (Session.Config cfg)) = Session.initCalls s)) /\
  (forall (s : Session.State) (k : nat),
     Session.initCalls (step s (Session.InitResolved k)) = Session.initCalls s /\
     Session.initCalls (step s (Session.InitFailed k)) = Session.initCalls s) /\
  (forall (s : Session.State) (pre post : list Session.Input),
     ended s pre = true -> run s (pre ++ post) = run s pre) /\
  (forall (A B C : Session.UserAccount) (tA tB tC : Session.AccountBase)
          (rs : list Session.Input),
     toAccount A = Some tA -> Session.addressStr tA = Session.address A ->
     toAccount B = Some tB -> Session.addressStr tB = Session.address B ->
     toAccount C = Some tC ->
     Session.address C <> Session.address A ->
     Session.address C <> Session.address B ->
     Forall Session.isResolution rs ->
     let cfg1 := Session.Config {| Session.userAccounts := [A; B] |} in
     let cfg2 := Session.Config {| Session.userAccounts := [A; B; C] |} in
     let s1 := run Session.init (cfg1 :: rs) in
     Session.pending s1 = [] ->
     ended Session.init (cfg1 :: rs ++ [cfg2]) = false /\
     Session.initCalls s1 = [tA; tB] /\
     Session.initCalls (run Session.init (cfg1 :: rs ++ [cfg2])) = [tA; tB; tC]).
Proof.
  split_and!.
  - intros s cfg. rewrite <- newEntries_filter. split.
    + intros bases Hb. apply mapM_Some in Hb. simpl. unfold Session.chosen.
      by rewrite Hb.
    + intros Hex. apply mapM_None in Hex. simpl. unfold Session.chosen.
      by rewrite Hex.
  - intros s k. simpl. split; by destruct (Session.pending s !! k).
  - intros s pre post Hend. by rewrite session_run_app, Hend.
  - intros A B C tA tB tC rs HA HtA HB HtB HC HCA HCB Hrs cfg1 cfg2 s1 Hpend.
    set (hA := {| Session.owner := tA; Session.serial := 0 |}).
    set (hB := {| Session.owner := tB; Session.serial := 1 |}).
    assert (Hc1 : chosen Session.init {| Session.userAccounts := [A; B] |} = Some [tA; tB]).
    { unfold Session.chosen.
      change (filter (Session.notInited (Session.inited Session.init))
                (Session.userAccounts {| Session.userAccounts := [A; B] |})) with [A; B].
      apply mapM_Some. by repeat constructor. }
    set (s0 := step Session.init cfg1).
    assert (Hs0 : s0 = {| Session.inited := []; Session.pending := [hA; hB];
                          Session.buffer := []; Session.initCalls := [tA; tB];
                          Session.published := [] |}).
    { unfold s0, cfg1. cbn [Session.step]. by rewrite Hc1. }
    assert (He0 : ends Session.init cfg1 = false).
    { unfold cfg1. cbn [Session.ends]. by rewrite Hc1. }
    assert (Hs1 : s1 = run s0 rs).
    { unfold s1. by rewrite session_run_cons, He0. }
    destruct (resolutions_run rs s0 Hrs) as (Hnoend & Hcalls & Hperm).
    rewrite <- Hs1 in Hcalls, Hperm. rewrite Hpend, app_nil_r in Hperm.
    rewrite Hs0 in Hcalls, Hperm. simpl in Hcalls, Hperm.
    assert (HinA : hA ∈ Session.inited s1) by (rewrite Hperm; apply elem_of_cons; by left).
    assert (HinB : hB ∈ Session.inited s1)
      by (rewrite Hperm; apply elem_of_cons; right; apply elem_of_cons; by left).
    assert (EA : ~ Session.notInited (Session.inited s1) A).
    { rewrite Is_true_true, notInited_spec. intros H. apply (H hA HinA). exact HtA. }
    assert (EB : ~ Session.notInited (Session.inited s1) B).
    { rewrite Is_true_true, notInited_spec. intros H. apply (H hB HinB). exact HtB. }
    assert (EC : Is_true (Session.notInited (Session.inited s1) C)).
    { rewrite Is_true_true. apply notInited_spec. intros i Hi. rewrite Hperm in Hi.
      apply elem_of_cons in Hi as [->|Hi].
      - intros Heq. apply HCA. rewrite <- HtA. symmetry. exact Heq.
      - apply list_elem_of_singleton in Hi as ->.
        intros Heq. apply HCB. rewrite <- HtB. symmetry. exact Heq. }
    assert (Hc2 : chosen s1 {| Session.userAccounts := [A; B; C] |} = Some [tC]).
    { unfold Session.chosen. cbn [Session.userAccounts].
      rewrite filter_cons, decide_False by exact EA.
      rewrite filter_cons, decide_False by exact EB.
      rewrite filter_cons, decide_True by exact EC.
      rewrite filter_nil. apply mapM_Some. by repeat constructor. }
    assert (He2 : ends s1 cfg2 = false).
    { unfold cfg2. cbn [Session.ends]. by rewrite Hc2. }
    assert (Hrun : run Session.init (cfg1 :: rs ++ [cfg2]) = step s1 cfg2).
    { rewrite session_run_cons, He0. fold s0.
      rewrite session_run_app, Hnoend, <- Hs1.
      by rewrite session_run_cons, He2. }
    split_and!.
    + rewrite session_ended_cons, He0. fold s0.
      rewrite session_ended_app, Hnoend, <- Hs1.
      by rewrite session_ended_cons, He2.
    + exact Hcalls.
    + rewrite Hrun. unfold cfg2. cbn [Session.step]. rewrite Hc2.
      cbn [Session.initCalls]. by rewrite Hcalls.
Qed.

End SessionFacts.

(** [initializer_called_on_new_addresses_only] with three accounts whose
    configured address is the address of their key, the second resolving
    before the first. *)
Lemma initializer_called_on_new_addresses_only_witness :
  let derive := fun k : string =>
    if String.eqb k "" then None else Some ("addr-" +:+ k) in
  let A := {| Session.privateKey := "0xa1"; Session.address := "addr-a1" |} in
  let B := {| Session.privateKey := "0xb2"; Session.address := "addr-b2" |} in
  let C := {| Session.privateKey := "0xc3"; Session.address := "addr-c3" |} in
  let base := fun k : string =>
    {| Session.privateKeyStr := k; Session.addressStr := "addr-" +:+ k;
       Session.addressShort := Session.shortAddress ("addr-" +:+ k) |} in
  let rs := [Session.InitResolved 1; Session.InitResolved 0] in
  let cfg1 := Session.Config {| Session.userAccounts := [A; B] |} in
  let cfg2 := Session.Config {| Session.userAccounts := [A; B; C] |} in
  Session.toAccount derive A = Some (base "a1") /\
  Session.toAccount derive B = Some (base "b2") /\
  Session.toAccount derive C = Some (base "c3") /\
  Session.address C <> Session.address A /\
  Session.address C <> Session.address B /\
  Forall Session.isResolution rs /\
  Session.pending (Session.run derive Session.init (cfg1 :: rs)) = [] /\
  Session.initCalls (Session.run derive Session.init (cfg1 :: rs ++ [cfg2])) =
    [base "a1"; base "b2"; base "c3"].
Proof.
  intros derive A B C base rs cfg1 cfg2.
  assert (HA : Session.toAccount derive A = Some (base "a1")) by reflexivity.
  assert (HB : Session.toAccount derive B = Some (base "b2")) by reflexivity.
  assert (HC : Session.toAccount derive C = Some (base "c3")) by reflexivity.
  assert (HCA : Session.address C <> Session.address A) by discriminate.
  assert (HCB : Session.address C <> Session.address B) by discriminate.
  assert (Hrs : Forall Session.isResolution rs) by (repeat constructor).
  assert (Hp : Session.pending (Session.run derive Session.init (cfg1 :: rs)) = [])
    by reflexivity.
  split_and!; try assumption.
  exact (proj2 (proj2 (proj2 (proj2 (proj2 (initializer_called_on_new_addresses_only derive)))
                  A B C (base "a1") (base "b2") (base "c3") rs
                  HA eq_refl HB eq_refl HC HCA HCB Hrs Hp))).
Defined.

(** C7 as stated fails.  When the configuration [A, B] is updated to
    [A, B, C] before the initializations of A and B have resolved, the
    update calls the initializer for A and B again, five calls in all.  And
    when A is configured under an address string that is not the one
    derived from its key, A is initialized again by every update, although
    its first initialization has resolved.  And when [toAccount] throws on
    the key of one new entry, the initializer is called for no entry of the
    configuration, new as they all are. *)
Lemma update_before_resolution_reinitializes :
  let derive := fun k : string =>
    if String.eqb k "" then None else Some ("addr-" +:+ k) in
  let A := {| Session.privateKey := "0xa1"; Session.address := "addr-a1" |} in
  let B := {| Session.privateKey := "0xb2"; Session.address := "addr-b2" |} in
  let C := {| Session.privateKey := "0xc3"; Session.address := "addr-c3" |} in
  let A' := {| Session.privateKey := "0xa1"; Session.address := "0xaddr-a1" |} in
  let base := fun k : string =>
    {| Session.privateKeyStr := k; Session.addressStr := "addr-" +:+ k;
       Session.addressShort := Session.shortAddress ("addr-" +:+ k) |} in
  let s := Session.run derive Session.init
             [Session.Config {| Session.userAccounts := [A; B] |};
              Session.Config {| Session.userAccounts := [A; B; C] |}] in
  let s' := Session.run derive Session.init
              [Session.Config {| Session.userAccounts := [A'] |};
               Session.InitResolved 0;
               Session.Config {| Session.userAccounts := [A'; C] |}] in
  let bad := {| Session.privateKey := "0x"; Session.address := "addr-d4" |} in
  let s'' := Session.run derive Session.init
               [Session.Config {| Session.userAccounts := [A; bad] |}] in
  Session.initCalls s = [base "a1"; base "b2"; base "a1"; base "b2"; base "c3"] /\
  Session.initCalls s <> [base "a1"; base "b2"; base "c3"] /\
  Session.inited s' = [{| Session.owner := base "a1"; Session.serial := 0 |}] /\
  Session.initCalls s' = [base "a1"; base "a1"; base "c3"] /\
  Session.toAccount derive bad = None /\
  Session.initCalls s'' = [].
Proof.
  intros derive A B C A' base s s' bad s''.
  assert (H : Session.initCalls s = [base "a1"; base "b2"; base "a1"; base "b2"; base "c3"])
    by reflexivity.
  split; [exact H|]. split; [rewrite H; discriminate|]. split_and!; reflexivity.
Qed.


(** ** Worked examples *)

Example deduplicated_example :
  let r1 := format {| blockNumber := 1; wei := 100; gotToken := 5; hsToken := 5 |} in
  let r1' := format {| blockNumber := 2; wei := 100; gotToken := 5; hsToken := 5 |} in
  let r2 := format {| blockNumber := 3; wei := 150; gotToken := 5; hsToken := 3 |} in
  deduplicated [None; Some r1; Some r1'; Some r2; Some r2] = [r1; r2].
Proof. reflexivity. Qed.

Example pipeline_example :
  let r1 := format {| blockNumber := 1; wei := 100; gotToken := 5; hsToken := 5 |} in
  let r2 := format {| blockNumber := 3; wei := 150; gotToken := 5; hsToken := 3 |} in
  Balances.pipeEmissions
    [Balances.Src None; Balances.Src (Some r1); Balances.Tick;
     Balances.Src (Some r2); Balances.Tick] =
    [None; Some r1; Some (Balances.deltaView r1 r2); Some r2].
Proof. reflexivity. Qed.

Example weiToEthString_examples :
  weiToEthString 2500000000000000000 = "2" /\
  weiToEthString 999999999999999999 = "0" /\
  weiToEthString (-1500000000000000000) = "-1" /\
  BN.toString (-2) = "-2".
Proof. repeat split; reflexivity. Qed.

Example tracker_stream_example :
  Tracker.stream
    [Tracker.NewBlock 7; Tracker.Resolved 1 Tracker.QWei 100;
     Tracker.NewBlock 8; Tracker.Resolved 1 Tracker.QGotToken 5;
     Tracker.Resolved 2 Tracker.QGotToken 5; Tracker.Resolved 2 Tracker.QHsToken 5;
     Tracker.Resolved 2 Tracker.QWei 101] =
    [None; Some (format {| blockNumber := 8; wei := 101; gotToken := 5; hsToken := 5 |})].
Proof. reflexivity. Qed.

Example toHex_example :
  Proxy.toHex [Byte.x0a; Byte.xff; Byte.x30] = "0aff30".
Proof. reflexivity. Qed.

Example normal_mode_sends_at_once :
  let r := Proxy.send (fun m : string => m) [Byte.x0a] "hello" Proxy.create in
  snd r = Proxy.TransportPromise /\
  Proxy.transport (fst r) = [("0a", "hello")] /\
  Proxy.messages (fst r) = [].
Proof. repeat split; reflexivity. Qed.

Example session_publishes_old_and_new :
  let derive := fun k : string => Some ("addr-" +:+ k) in
  let A := {| Session.privateKey := "0xa1"; Session.address := "addr-a1" |} in
  let B := {| Session.privateKey := "0xb2"; Session.address := "addr-b2" |} in
  let s := Session.run derive Session.init
             [Session.Config {| Session.userAccounts := [A] |}; Session.InitResolved 0;
              Session.Config {| Session.userAccounts := [A; B] |}; Session.InitResolved 0] in
  map (map (fun a => Session.addressStr (Session.owner a))) (Session.published s) =
    [["addr-a1"]; ["addr-a1"; "addr-b2"]].
Proof. reflexivity. Qed.


(** A failed initialization ends the manager: A resolves and is
    published; the update to [A, B, C] starts B and C; B resolves, C's
    initialization fails.  B stays in the array of initialized accounts,
    nothing more is published, and a later configuration is not handled. *)
Example session_ends_on_failed_initialization :
  let derive := fun k : string =>
    if String.eqb k "" then None else Some ("addr-" +:+ k) in
  let A := {| Session.privateKey := "0xa1"; Session.address := "addr-a1" |} in
  let B := {| Session.privateKey := "0xb2"; Session.address := "addr-b2" |} in
  let C := {| Session.privateKey := "0xc3"; Session.address := "addr-c3" |} in
  let base := fun k : string =>
    {| Session.privateKeyStr := k; Session.addressStr := "addr-" +:+ k;
       Session.addressShort := Session.shortAddress ("addr-" +:+ k) |} in
  let hA := {| Session.owner := base "a1"; Session.serial := 0 |} in
  let hB := {| Session.owner := base "b2"; Session.serial := 1 |} in
  let ins := [Session.Config {| Session.userAccounts := [A] |}; Session.InitResolved 0;
              Session.Config {| Session.userAccounts := [A; B; C] |}; Session.InitResolved 0;
              Session.InitFailed 0;
              Session.Config {| Session.userAccounts := [A; B; C] |}] in
  Session.ended derive Session.init ins = true /\
  Session.run derive Session.init ins =
    {| Session.inited := [hA; hB]; Session.pending := []; Session.buffer := [hA; hB];
       Session.initCalls := [base "a1"; base "b2"; base "c3"];
       Session.published := [[hA]] |}.
Proof. split; reflexivity. Qed.

(** A malformed key ends the manager before any initializer is called,
    also for the well-formed entries of the same configuration. *)
Example session_ends_on_malformed_key :
  let derive := fun k : string =>
    if String.eqb k "" then None else Some ("addr-" +:+ k) in
  let A := {| Session.privateKey := "0xa1"; Session.address := "addr-a1" |} in
  let bad := {| Session.privateKey := "0x"; Session.address := "addr-b2" |} in
  let ins := [Session.Config {| Session.userAccounts := [A; bad] |}] in
  Session.ended derive Session.init ins = true /\
  Session.run derive Session.init ins = Session.init.
Proof. split; reflexivity. Qed.

(** A block number the [map] callback of line 184 cannot convert ends the
    merged log and, with the internal subscription, the subscription that
    drives [onBlock]: the engine hears of neither this block nor the
    next. *)
Example unconvertible_block_number_ends_log_and_onBlock :
  let b7 : @Aggregator.Input string string :=
    Aggregator.Arrive {| Aggregator.now := 10; Aggregator.blockNow := Some 7 |}
                      (Aggregator.RawBlock 7) in
  let big := Aggregator.Arrive {| Aggregator.now := 11; Aggregator.blockNow := Some (2 ^ 53 + 1) |}
                               (Aggregator.RawBlock (2 ^ 53 + 1)) in
  let b9 := Aggregator.Arrive {| Aggregator.now := 12; Aggregator.blockNow := Some 9 |}
                              (Aggregator.RawBlock 9) in
  let s := Aggregator.run Aggregator.sampleDecode Aggregator.IsolateEach
             Aggregator.initAccount [b7; big; b9] in
  Aggregator.engine s = [Aggregator.OnBlock 7] /\
  Aggregator.history (Aggregator.log s) = [] /\
  Aggregator.registry s =
    [(Aggregator.Blockchain, Aggregator.EngineDriver);
     (Aggregator.P2P, Aggregator.EngineDriver); (Aggregator.P2P, Aggregator.Logger)] /\
  Aggregator.escaped s = [Aggregator.RawBlock (2 ^ 53 + 1)].
Proof. intros b7 big b9 s. by vm_compute. Qed.

(** Giving up the internal subscription, as [dispose] does, ends the
    subscription driving [onBlock] with it, while the log keeps its
    source: a block number arriving afterwards is logged and not handed to
    the engine. *)
Example internal_unsubscribe_ends_onBlock :
  let b7 : @Aggregator.Input string string :=
    Aggregator.Arrive {| Aggregator.now := 10; Aggregator.blockNow := Some 7 |}
                      (Aggregator.RawBlock 7) in
  let s := Aggregator.run Aggregator.sampleDecode Aggregator.IsolateEach
             Aggregator.initAccount [Aggregator.Detach 0; b7] in
  Aggregator.engine s = [] /\
  Aggregator.history (Aggregator.log s) = Aggregator.eventsOf [b7].
Proof. intros b7 s. by vm_compute. Qed.

(** * Further properties *)

(** ** Runs of the proxy *)
Section ProxyRunFacts.

Context {SignedMessage Wire : Type}.
Variable serialize : SignedMessage -> Wire.

Local Abbreviation pcall := (ProxyRun.call serialize).
Local Abbreviation prun := (ProxyRun.run serialize).
Local Abbreviation raw := (Proxy.rawSend serialize).

(** What has been sent plus what is queued. *)
Local Abbreviation outgoing :=
  (fun s : Proxy.State => Proxy.transport s ++ map raw (Proxy.messages s)).

(** The queue is used in manual mode only. *)
Local Abbreviation tidy :=
  (fun s : Proxy.State => Proxy.mode s = Proxy.normal -> Proxy.messages s = []).

Lemma call_tidy (s : Proxy.State) (c : ProxyRun.Call) : tidy s -> tidy (pcall s c).
Proof.
  intros H. destruct c as [to msg|m|]; simpl; [|done..].
  unfold Proxy.send. destruct (Proxy.mode s) eqn:E; simpl; [by auto|done].
Qed.

Lemma run_tidy (cs : list ProxyRun.Call) (s : Proxy.State) : tidy s -> tidy (prun s cs).
Proof.
  revert s. induction cs as [|c cs IH]; intros s H; [done|].
  simpl. apply IH. by apply call_tidy.
Qed.

Lemma call_outgoing (s : Proxy.State) (c : ProxyRun.Call) :
  tidy s ->
  outgoing (pcall s c) = outgoing s ++ map raw (ProxyRun.handed [c]).
Proof.
  intros Ht. destruct c as [to msg|m|]; simpl.
  - unfold Proxy.send. destruct (Proxy.mode s) eqn:E; simpl.
    + rewrite (Ht E). simpl. by rewrite !app_nil_r.
    + by rewrite map_app, app_assoc.
  - rewrite !app_nil_r.
    change (Proxy.transport (Proxy.setMode serialize m s))
      with (Proxy.transport (Proxy.flush serialize s)).
    apply flush_transport.
  - rewrite !app_nil_r. apply flush_transport.
Qed.

Lemma run_outgoing (cs : list ProxyRun.Call) (s : Proxy.State) :
  tidy s ->
  outgoing (prun s cs) = outgoing s ++ map raw (ProxyRun.handed cs).
Proof.
  revert s. induction cs as [|c cs IH]; intros s Ht.
  - simpl. by rewrite app_nil_r.
  - simpl ProxyRun.run. rewrite IH by by apply call_tidy.
    rewrite call_outgoing by done.
    rewrite <- app_assoc, <- map_app. do 2 f_equal.
    unfold ProxyRun.handed. simpl. by rewrite app_nil_r.
Qed.

(** X1: whatever the order of [send], [setMode] and [flush] calls on a
    fresh proxy, the raw sends made so far followed by the pending queue are
    exactly the pairs handed to [send], in call order: nothing is lost,
    repeated or overtaken. *)
Theorem proxy_keeps_call_order (cs : list ProxyRun.Call) :
  Proxy.transport (prun Proxy.create cs) ++ map raw (Proxy.messages (prun Proxy.create cs)) =
    map raw (ProxyRun.handed cs).
Proof. by rewrite (run_outgoing cs Proxy.create). Qed.

(** X2: a proxy reached from a fresh one that is in normal mode has an
    empty queue, so everything handed to [send] so far has reached the
    transport, and a [send] made now reaches it at once, answers the
    transport's promise and queues nothing. *)
Theorem proxy_normal_mode_has_no_queue
    (cs : list ProxyRun.Call) (to : Proxy.Address) (msg : SignedMessage) :
  Proxy.mode (prun Proxy.create cs) = Proxy.normal ->
  let s := prun Proxy.create cs in
  let r := Proxy.send serialize to msg s in
  Proxy.messages s = [] /\
  Proxy.transport s = map raw (ProxyRun.handed cs) /\
  snd r = Proxy.TransportPromise /\
  Proxy.transport (fst r) = Proxy.transport s ++ [raw (to, msg)] /\
  Proxy.messages (fst r) = [].
Proof.
  intros Hmode s r.
  assert (Hq : Proxy.messages s = []) by (apply (run_tidy cs Proxy.create); done).
  split; [exact Hq|]. split.
  - pose proof (run_outgoing cs Proxy.create ltac:(done)) as Hout.
    cbv beta in Hout. fold s in Hout. rewrite Hq in Hout.
    simpl in Hout. by rewrite app_nil_r in Hout.
  - subst r s. unfold Proxy.send. rewrite Hmode. simpl. by rewrite Hq.
Qed.

End ProxyRunFacts.

(** [proxy_normal_mode_has_no_queue] after a manual episode. *)
Lemma proxy_normal_mode_has_no_queue_witness :
  let ser := fun m : string => m in
  let cs := [ProxyRun.CallSetMode Proxy.manual; ProxyRun.CallSend [Byte.x0a] "one";
             ProxyRun.CallSend [Byte.x0b] "two"; ProxyRun.CallSetMode Proxy.normal] in
  let s := ProxyRun.run ser Proxy.create cs in
  Proxy.mode s = Proxy.normal /\
  Proxy.messages s = [] /\
  Proxy.transport s = map (Proxy.rawSend ser) (ProxyRun.handed cs).
Proof.
  intros ser cs s.
  assert (H : Proxy.mode s = Proxy.normal) by reflexivity.
  split; [exact H|].
  pose proof (proxy_normal_mode_has_no_queue ser cs [Byte.x0c] "three" H) as (H1 & H2 & _).
  split; [exact H1|exact H2].
Defined.

(** ** Deduplication, further *)

Lemma last_lookup_length {X : Type} (l : list X) : last l = l !! pred (length l).
Proof. apply last_lookup. Qed.

Lemma neighboursDiffer_snoc (l : list AccountBalanceFormatted) (x : AccountBalanceFormatted) :
  BalancesRun.neighboursDiffer l ->
  (forall a, last l = Some a -> quantitiesDiffer a x) ->
  BalancesRun.neighboursDiffer (l ++ [x]).
Proof.
  intros Hl Hx i a b Hi HSi.
  destruct (decide (S i < length l)%nat) as [Hlt|Hge].
  - rewrite lookup_app_l in Hi by lia. rewrite lookup_app_l in HSi by lia.
    by apply (Hl i).
  - assert (Hlen : (S i < length (l ++ [x]))%nat) by by eapply lookup_lt_Some.
    rewrite length_app in Hlen. simpl in Hlen.
    assert (Heq : S i = length l) by lia.
    rewrite lookup_app_l in Hi by lia.
    rewrite lookup_app_r in HSi by lia.
    replace (S i - length l)%nat with 0%nat in HSi by lia. simpl in HSi.
    inversion HSi; subst b. apply Hx.
    rewrite last_lookup_length. by replace (pred (length l)) with i by lia.
Qed.

Lemma neighboursDiffer_snoc_inv (l : list AccountBalanceFormatted) (x : AccountBalanceFormatted) :
  BalancesRun.neighboursDiffer (l ++ [x]) ->
  BalancesRun.neighboursDiffer l /\
  (forall a, last l = Some a -> quantitiesDiffer a x).
Proof.
  intros H. split.
  - intros i a b Hi HSi. apply (H i); by apply lookup_app_l_Some.
  - intros a Ha. rewrite last_lookup_length in Ha.
    destruct l as [|y l']; [done|]. simpl in Ha.
    apply (H (length l')).
    + by apply lookup_app_l_Some.
    + change (S (length l')) with (length (y :: l')).
      by rewrite list_lookup_middle.
Qed.

Lemma dedupStep_out (k x : option AccountBalanceFormatted) :
  snd (dedupStep k x) =
    match x with
    | None => []
    | Some v =>
        match k with
        | None => [v]
        | Some l => if compareFormatted l v then [] else [v]
        end
    end.
Proof.
  unfold dedupStep, Rx.distinctUntilChanged.
  destruct x as [v|]; simpl; [|done].
  destruct k as [l|]; [|done]. by destruct (compareFormatted l v).
Qed.

Lemma deduplicated_shape (xs : list (option AccountBalanceFormatted)) :
  BalancesRun.neighboursDiffer (deduplicated xs) /\
  sublist (deduplicated xs) (omap id xs).
Proof.
  induction xs as [|x xs [IH1 IH2]] using rev_ind.
  - split; [by intros i a b Hi|done].
  - rewrite deduplicated_snoc, dedupStep_out, omap_app.
    destruct x as [v|]; simpl.
    + destruct (last (deduplicated xs)) as [l|] eqn:El.
      * destruct (compareFormatted l v) eqn:E.
        -- rewrite app_nil_r. split; [done|]. by apply sublist_inserts_r.
        -- split; [|by apply sublist_app].
           apply neighboursDiffer_snoc; [done|].
           intros a Ha. rewrite El in Ha. inversion Ha; subst a.
           by apply compareFormatted_false.
      * split; [|by apply sublist_app].
        apply neighboursDiffer_snoc; [done|]. intros a Ha. by rewrite El in Ha.
    + by rewrite !app_nil_r.
Qed.

(** X3: in what the deduplicated stream emits, any two consecutive readings
    differ in some quantity, and the emitted readings are readings that were
    delivered, in the order of delivery. *)
Theorem dedup_neighbours_differ (xs : list (option AccountBalanceFormatted)) :
  BalancesRun.neighboursDiffer (deduplicated xs) /\
  sublist (deduplicated xs) (omap id xs).
Proof. apply deduplicated_shape. Qed.

Lemma dedup_fixes_differing (l : list AccountBalanceFormatted) :
  BalancesRun.neighboursDiffer l -> deduplicated (Some <$> l) = l.
Proof.
  induction l as [|x l IH] using rev_ind; intros H; [done|].
  apply neighboursDiffer_snoc_inv in H as [Hl Hx].
  rewrite fmap_app. simpl. rewrite deduplicated_snoc, dedupStep_out, (IH Hl).
  destruct (last l) as [a|] eqn:El; [|done].
  destruct (compareFormatted a x) eqn:E; [|done].
  apply compareFormatted_true in E. by destruct (E (Hx a eq_refl)).
Qed.

(** X4: deduplicating what the deduplicated stream emitted changes
    nothing. *)
Theorem dedup_idempotent (xs : list (option AccountBalanceFormatted)) :
  deduplicated (Some <$> deduplicated xs) = deduplicated xs.
Proof. apply dedup_fixes_differing, deduplicated_shape. Qed.

(** ** The delta record, further *)

Lemma uint_string_head (d : Decimal.uint) :
  exists c s, NilZero.string_of_uint d = String c s /\ Ascii.eqb c "-" = false.
Proof. destruct d; simpl; eauto. Qed.

Lemma toString_nonneg (z : Z) :
  0 <= z -> exists c s, BN.toString z = String c s /\ Ascii.eqb c "-" = false.
Proof.
  intros H. unfold BN.toString. destruct z as [|p|p]; [| |lia]; simpl.
  - by exists "0"%char, EmptyString.
  - apply uint_string_head.
Qed.

Lemma toString_neg (z : Z) :
  z < 0 -> exists s, BN.toString z = String "-" s.
Proof.
  intros H. unfold BN.toString. destruct z as [|p|p]; [lia|lia|]; simpl. eauto.
Qed.

Lemma signKey_lookup (d : DeltaRecord) (k k' : string) :
  Balances.signKey d k !! k' =
    if decide (k = k') then
      match d !! k with
      | Some (Some s) =>
          if Balances.truthy s && Balances.firstIsNotMinus s
          then Some (Some ("+" +:+ s)) else Some (Some s)
      | o => o
      end
    else d !! k'.
Proof.
  unfold Balances.signKey. destruct (decide (k = k')) as [<-|Hne].
  - destruct (d !! k) as [[s|]|] eqn:E; rewrite ?E; try done.
    destruct (Balances.truthy s && Balances.firstIsNotMinus s); [|done].
    by rewrite lookup_insert_eq.
  - destruct (d !! k) as [[s|]|]; try done.
    destruct (Balances.truthy s && Balances.firstIsNotMinus s); [|done].
    by rewrite lookup_insert_ne.
Qed.

Lemma signed_nonneg (z : Z) :
  0 <= z ->
  Balances.truthy (BN.toString z) && Balances.firstIsNotMinus (BN.toString z) = true.
Proof.
  intros H. destruct (toString_nonneg z H) as (c & s & -> & Hc). simpl. by rewrite Hc.
Qed.

Lemma signed_neg (z : Z) :
  z < 0 ->
  Balances.truthy (BN.toString z) && Balances.firstIsNotMinus (BN.toString z) = false.
Proof. intros H. destruct (toString_neg z H) as (s & ->). reflexivity. Qed.

Lemma token_delta_lookup (x y : BN.t) :
  match (if negb (BN.eq x y) then Some (BN.toString (BN.sub y x)) else None) with
  | Some s =>
      if Balances.truthy s && Balances.firstIsNotMinus s
      then Some (Some ("+" +:+ s)) else Some (Some s)
  | None => Some None
  end = Some (BalancesRun.tokenDelta x y).
Proof.
  unfold BalancesRun.tokenDelta, BN.eq, BN.sub.
  destruct (Z.compare_spec x y) as [->|Hlt|Hgt].
  - by rewrite Z.eqb_refl.
  - rewrite (proj2 (Z.eqb_neq x y)) by lia. simpl.
    by rewrite signed_nonneg by lia.
  - rewrite (proj2 (Z.eqb_neq x y)) by lia. simpl.
    by rewrite signed_neg by lia.
Qed.

Lemma signDelta_lookup (d : DeltaRecord) (k : string) :
  k = "eth" \/ k = "got" \/ k = "hs" ->
  Balances.signDelta d !! k =
    match d !! k with
    | Some (Some s) =>
        if Balances.truthy s && Balances.firstIsNotMinus s
        then Some (Some ("+" +:+ s)) else Some (Some s)
    | o => o
    end.
Proof.
  intros Hk. unfold Balances.signDelta. cbn [fold_left].
  rewrite !signKey_lookup.
  destruct Hk as [-> | [-> | ->]]; repeat (case_decide; try done).
Qed.

(** X5: in the view built for the pair (a, b), the [got] and [hs] entries of
    the delta record are undefined when the token balance did not change, a
    '+' followed by the increase when it grew, and the decrease with its
    own leading '-' (and no '+') when it shrank. *)
Theorem token_delta_is_signed (a b : AccountBalanceFormatted) :
  delta (Balances.deltaView a b) !! "got" =
    Some (BalancesRun.tokenDelta (gotToken (bal a)) (gotToken (bal b))) /\
  delta (Balances.deltaView a b) !! "hs" =
    Some (BalancesRun.tokenDelta (hsToken (bal a)) (hsToken (bal b))) /\
  (forall x y : BN.t, y < x -> exists s, BalancesRun.tokenDelta x y = Some (String "-" s)).
Proof.
  split_and!.
  - unfold Balances.deltaView. cbn [delta Balances.withDelta].
    rewrite signDelta_lookup by auto.
    unfold Balances.rawDelta. rewrite lookup_insert_ne by done. rewrite lookup_insert_eq.
    destruct (negb (BN.eq (gotToken (bal a)) (gotToken (bal b)))) eqn:E;
      pose proof (token_delta_lookup (gotToken (bal a)) (gotToken (bal b))) as H;
      rewrite E in H; exact H.
  - unfold Balances.deltaView. cbn [delta Balances.withDelta].
    rewrite signDelta_lookup by auto.
    unfold Balances.rawDelta. rewrite !lookup_insert_ne by done. rewrite lookup_insert_eq.
    destruct (negb (BN.eq (hsToken (bal a)) (hsToken (bal b)))) eqn:E;
      pose proof (token_delta_lookup (hsToken (bal a)) (hsToken (bal b))) as H;
      rewrite E in H; exact H.
  - intros x y Hlt. unfold BalancesRun.tokenDelta.
    rewrite (proj2 (Z.compare_gt_iff x y)) by lia.
    destruct (toString_neg (BN.sub y x)) as (s & ->); [unfold BN.sub; lia|]. eauto.
Qed.

Lemma quot_below_unit (d : Z) :
  -1000000000000000000 < d < 1000000000000000000 -> Z.quot d 1000000000000000000 = 0.
Proof.
  intros H. destruct (Z_lt_le_dec d 0) as [Hneg|Hpos].
  - replace d with (- (- d)) by lia. rewrite Z.quot_opp_l by lia.
    rewrite Z.quot_small by lia. reflexivity.
  - apply Z.quot_small. lia.
Qed.

(** X6: the [eth] entry of the delta record is undefined when the wei
    balance did not change; otherwise it is the wei difference divided by
    10^18 with the remainder dropped, printed with a '+' unless the quotient
    is negative.  So a change of less than 10^18 wei, up or down, is shown
    as "+0". *)
Theorem eth_delta_drops_fraction (a b : AccountBalanceFormatted) :
  delta (Balances.deltaView a b) !! "eth" =
    Some (if BN.eq (wei (bal a)) (wei (bal b)) then None
          else let q := BN.div (BN.sub (wei (bal b)) (wei (bal a))) 1000000000000000000 in
               Some (if Z.ltb q 0 then BN.toString q else "+" +:+ BN.toString q)) /\
  (wei (bal a) <> wei (bal b) ->
   -1000000000000000000 < wei (bal b) - wei (bal a) < 1000000000000000000 ->
   delta (Balances.deltaView a b) !! "eth" = Some (Some "+0")).
Proof.
  assert (H : delta (Balances.deltaView a b) !! "eth" =
    Some (if BN.eq (wei (bal a)) (wei (bal b)) then None
          else let q := BN.div (BN.sub (wei (bal b)) (wei (bal a))) 1000000000000000000 in
               Some (if Z.ltb q 0 then BN.toString q else "+" +:+ BN.toString q))).
  { unfold Balances.deltaView. cbn [delta Balances.withDelta].
    rewrite signDelta_lookup by auto.
    unfold Balances.rawDelta. rewrite lookup_insert_eq.
    destruct (BN.eq (wei (bal a)) (wei (bal b))); simpl; [done|].
    unfold weiToEthString, as_Wei.
    set (q := BN.div (BN.sub (wei (bal b)) (wei (bal a))) 1000000000000000000).
    destruct (Z.ltb_spec q 0) as [Hq|Hq].
    - by rewrite signed_neg.
    - by rewrite signed_nonneg. }
  split; [exact H|].
  intros Hne Hsmall. rewrite H.
  unfold BN.eq. rewrite (proj2 (Z.eqb_neq _ _)) by done.
  unfold BN.div, BN.sub. by rewrite quot_below_unit.
Qed.

(** [eth_delta_drops_fraction] on a decrease of half a unit. *)
Lemma eth_delta_drops_fraction_witness :
  let a := format {| blockNumber := 1; wei := 2500000000000000000; gotToken := 5; hsToken := 5 |} in
  let b := format {| blockNumber := 2; wei := 2000000000000000000; gotToken := 5; hsToken := 5 |} in
  wei (bal a) <> wei (bal b) /\
  -1000000000000000000 < wei (bal b) - wei (bal a) < 1000000000000000000 /\
  delta (Balances.deltaView a b) !! "eth" = Some (Some "+0").
Proof.
  intros a b.
  assert (H1 : wei (bal a) <> wei (bal b)) by discriminate.
  assert (H2 : -1000000000000000000 < wei (bal b) - wei (bal a) < 1000000000000000000)
    by (simpl; lia).
  split; [exact H1|]. split; [exact H2|].
  exact (proj2 (eth_delta_drops_fraction a b) H1 H2).
Defined.

(** ** The pipeline shows delivered readings only *)

Lemma sameReading_refl (r : AccountBalanceFormatted) : BalancesRun.sameReading r r.
Proof. by repeat split. Qed.

Lemma sameReading_deltaView (a b : AccountBalanceFormatted) :
  BalancesRun.sameReading (Balances.deltaView a b) b.
Proof. by repeat split. Qed.

Lemma fromDelivered_mono (S T : list (option AccountBalanceFormatted))
    (o : option AccountBalanceFormatted) :
  BalancesRun.fromDelivered S o -> BalancesRun.fromDelivered (S ++ T) o.
Proof.
  intros H r Hr. destruct (H r Hr) as (x & Hx & Hs).
  exists x. split; [|done]. apply elem_of_app. by left.
Qed.

Lemma pipeStep_delivered (S : list (option AccountBalanceFormatted))
    (s : Balances.PipeState) (i : Balances.PipeInput) :
  BalancesRun.holdsDelivered S s ->
  BalancesRun.holdsDelivered (S ++ Balances.sources [i]) (fst (Balances.pipeStep s i)) /\
  Forall (BalancesRun.fromDelivered (S ++ Balances.sources [i])) (snd (Balances.pipeStep s i)).
Proof.
  intros (Hk & Hp & Ht).
  assert (Hin : forall r, Some r ∈ S -> Some r ∈ S ++ Balances.sources [i])
    by (intros r Hr; apply elem_of_app; by left).
  destruct i as [v|]; simpl.
  - destruct v as [y|]; simpl.
    + assert (Hy : Some y ∈ S ++ [Some y]) by (apply elem_of_app; right; by left).
      assert (Hpass :
        BalancesRun.holdsDelivered (S ++ [Some y])
          (fst (Balances.afterDedup
                  {| Balances.key := Some y; Balances.prev := Balances.prev s;
                     Balances.timer := Balances.timer s |} y)) /\
        Forall (BalancesRun.fromDelivered (S ++ [Some y]))
          (snd (Balances.afterDedup
                  {| Balances.key := Some y; Balances.prev := Balances.prev s;
                     Balances.timer := Balances.timer s |} y))).
      { unfold Balances.afterDedup, Rx.pairwise; simpl.
        destruct (Balances.prev s) as [[a|]|] eqn:Ep; simpl.
        - split.
          + split_and!; simpl; intros r Hr; inversion Hr; by subst.
          + constructor; [|constructor]. intros r Hr. inversion Hr; subst r.
            exists y. split; [done|]. apply sameReading_deltaView.
        - split.
          + split_and!; simpl; intros r Hr; inversion Hr; by subst.
          + constructor; [|constructor]. intros r Hr. inversion Hr; subst r.
            exists y. split; [done|]. apply sameReading_refl.
        - split; [|constructor].
          split_and!; simpl; intros r Hr; [inversion Hr; by subst|inversion Hr; by subst|].
          apply Hin. by apply Ht. }
      unfold dedupStep, Rx.distinctUntilChanged; simpl.
      destruct (Balances.key s) as [k|] eqn:Ek; [|exact Hpass].
      destruct (compareFormatted k y); [|exact Hpass].
      simpl. split; [|constructor].
      split_and!; simpl; intros r Hr; apply Hin; auto.
    + unfold dedupStep; simpl. split; [|constructor].
      split_and!; intros r Hr; apply Hin; auto.
  - rewrite app_nil_r. destruct (Balances.timer s) as [b|] eqn:Et; simpl.
    + split.
      * split_and!; simpl; [done|done|]. intros r Hr. discriminate.
      * constructor; [|constructor]. intros r Hr. subst b.
        exists r. split; [by apply Ht|]. apply sameReading_refl.
    + split; [|constructor]. split_and!; [done|done|]. by rewrite Et.
Qed.

Lemma pipeRun_delivered (ins : list Balances.PipeInput)
    (S : list (option AccountBalanceFormatted)) (s : Balances.PipeState) :
  BalancesRun.holdsDelivered S s ->
  Forall (BalancesRun.fromDelivered (S ++ Balances.sources ins))
         (snd (Rx.run Balances.pipeStep s ins)).
Proof.
  revert S s. induction ins as [|i ins IH]; intros S s H; [constructor|].
  rewrite run_cons_snd, sources_cons, app_assoc.
  destruct (pipeStep_delivered S s i H) as [H1 H2].
  apply Forall_app. split.
  - eapply Forall_impl; [exact H2|]. intros o Ho. by apply fromDelivered_mono.
  - by apply IH.
Qed.

(** X7: every value an account's pipeline emits is [undefined] or carries
    the block number, quantities and strings of a reading that was delivered
    to it; a delta view differs from the delivered reading in its delta record
    only. *)
Theorem pipeline_shows_delivered_readings (ins : list Balances.PipeInput) :
  Forall (BalancesRun.fromDelivered (Balances.sources ins)) (Balances.pipeEmissions ins).
Proof.
  unfold Balances.pipeEmissions. apply Forall_app. split.
  - constructor; [|constructor]. intros r Hr. discriminate.
  - apply (pipeRun_delivered ins [] Balances.pipeInit).
    split_and!; simpl; intros r Hr; discriminate.
Qed.

(** ** The keys of the merged balance map *)




(** ** The balance tracker, further *)

Lemma combine_block (b : Tracker.Batch) (bl : AccountBalance) :
  Tracker.combine b = Some bl -> blockNumber bl = Tracker.batchBlock b.
Proof.
  unfold Tracker.combine.
  destruct (Tracker.gotRes b), (Tracker.hsRes b), (Tracker.weiRes b); intros H;
    inversion H; by subst.
Qed.

Lemma fill_block (b : Tracker.Batch) (q : Tracker.Query) (v : BN.t) :
  Tracker.batchBlock (Tracker.fill b q v) = Tracker.batchBlock b.
Proof. by destruct q. Qed.

Lemma tracker_blocks_from (ins : list Tracker.Input) (s : Tracker.State) :
  sublist (map (fun r => blockNumber (bal r)) (snd (Rx.run Tracker.step s ins)))
          (match Tracker.inflight s with
           | Some b => [Tracker.batchBlock b]
           | None => []
           end ++ BalancesRun.blocksOf ins) /\
  Forall (fun r => r = format (bal r)) (snd (Rx.run Tracker.step s ins)).
Proof.
  revert s. induction ins as [|i ins IH]; intros s.
  - simpl. split; [apply sublist_nil_l|constructor].
  - rewrite run_cons_snd. destruct i as [bn|n q v].
    + destruct (IH (fst (Tracker.step s (Tracker.NewBlock bn)))) as [IH1 IH2].
      simpl in *. split; [|done]. by apply sublist_inserts_l.
    + change (BalancesRun.blocksOf (Tracker.Resolved n q v :: ins))
        with (BalancesRun.blocksOf ins).
      destruct (IH (fst (Tracker.step s (Tracker.Resolved n q v)))) as [IH1 IH2].
      revert IH1 IH2. simpl.
      destruct (Tracker.inflight s) as [b|] eqn:Eb; [|simpl; by rewrite Eb].
      destruct (n =? Tracker.batchNo s)%nat; [|simpl; by rewrite Eb].
      destruct (Tracker.slot b q); [simpl; by rewrite Eb|].
      destruct (Tracker.combine (Tracker.fill b q v)) as [bl|] eqn:Ec; simpl.
      * intros IH1 IH2. apply combine_block in Ec. rewrite fill_block in Ec.
        rewrite Ec. split; [by apply sublist_skip|]. by constructor.
      * by rewrite fill_block.
Qed.

Lemma blocksOf_app (xs ys : list Tracker.Input) :
  BalancesRun.blocksOf (xs ++ ys) = BalancesRun.blocksOf xs ++ BalancesRun.blocksOf ys.
Proof. unfold BalancesRun.blocksOf. by rewrite flat_map_app. Qed.

(** The batch in flight belongs to the block delivered last. *)
Lemma tracker_inflight_block (pre : list Tracker.Input) :
  forall b, Tracker.inflight (fst (Rx.run Tracker.step Tracker.init pre)) = Some b ->
    last (BalancesRun.blocksOf pre) = Some (Tracker.batchBlock b).
Proof.
  induction pre as [|i pre IH] using rev_ind; [done|].
  intros b. rewrite run_app_fst, blocksOf_app.
  set (s := fst (Rx.run Tracker.step Tracker.init pre)) in *.
  destruct i as [bn|n q v]; simpl.
  - intros [= <-]. by rewrite last_snoc.
  - rewrite app_nil_r.
    destruct (Tracker.inflight s) as [b0|] eqn:Eb; [|simpl; by rewrite Eb].
    specialize (IH b0 eq_refl).
    destruct (n =? Tracker.batchNo s)%nat; [|simpl; rewrite Eb; by intros [= <-]].
    destruct (Tracker.slot b0 q); [simpl; rewrite Eb; by intros [= <-]|].
    destruct (Tracker.combine (Tracker.fill b0 q v)); simpl; [done|].
    intros [= <-]. by rewrite fill_block.
Qed.

(** Without a new block, a batch in flight gives at most one reading and
    no batch gives none. *)
Lemma tracker_one_reading (post : list Tracker.Input) (s : Tracker.State) :
  BalancesRun.blocksOf post = [] ->
  (length (snd (Rx.run Tracker.step s post)) <=
     match Tracker.inflight s with Some _ => 1 | None => 0 end)%nat.
Proof.
  revert s. induction post as [|i post IH]; intros s Hnb.
  - simpl. destruct (Tracker.inflight s); lia.
  - destruct i as [bn|n q v]; [done|].
    change (BalancesRun.blocksOf (Tracker.Resolved n q v :: post))
      with (BalancesRun.blocksOf post) in Hnb.
    rewrite run_cons_snd, length_app.
    specialize (IH (fst (Tracker.step s (Tracker.Resolved n q v))) Hnb).
    revert IH. simpl.
    destruct (Tracker.inflight s) as [b|] eqn:Eb; [|simpl; rewrite Eb; simpl; lia].
    destruct (n =? Tracker.batchNo s)%nat; [|simpl; rewrite Eb; simpl; lia].
    destruct (Tracker.slot b q); [simpl; rewrite Eb; simpl; lia|].
    destruct (Tracker.combine (Tracker.fill b q v)); simpl; lia.
Qed.

(** X9: the readings of the handle's balance stream are in block order:
    their block numbers form a subsequence of the block numbers delivered,
    and the three strings of every reading are those of its quantities.  A
    reading, when it is emitted, is for the block delivered last, and
    between the delivery of a block and the next delivery at most one
    reading is emitted: a block replaced before its three answers arrived
    has no reading. *)
Theorem tracker_readings_follow_blocks (ins : list Tracker.Input) :
  Tracker.stream ins = None :: (Some <$> BalancesRun.readings ins) /\
  sublist (map (fun r => blockNumber (bal r)) (BalancesRun.readings ins))
          (BalancesRun.blocksOf ins) /\
  Forall (fun r => r = format (bal r)) (BalancesRun.readings ins) /\
  (forall (pre : list Tracker.Input) (i : Tracker.Input),
     exists out,
       BalancesRun.readings (pre ++ [i]) = BalancesRun.readings pre ++ out /\
       Forall (fun r => last (BalancesRun.blocksOf pre) = Some (blockNumber (bal r))) out) /\
  (forall (pre post : list Tracker.Input) (bn : Z),
     BalancesRun.blocksOf post = [] ->
     (length (BalancesRun.readings (pre ++ Tracker.NewBlock bn :: post)) <=
        S (length (BalancesRun.readings pre)))%nat).
Proof.
  split; [reflexivity|].
  destruct (tracker_blocks_from ins Tracker.init) as [H1 H2].
  split; [exact H1|]. split; [exact H2|]. split.
  - intros pre i.
    exists (snd (Tracker.step (fst (Rx.run Tracker.step Tracker.init pre)) i)).
    split.
    + unfold BalancesRun.readings. rewrite run_app_snd, run_cons_snd. simpl.
      by rewrite app_nil_r.
    + pose proof (tracker_inflight_block pre) as Hb.
      set (s := fst (Rx.run Tracker.step Tracker.init pre)) in *.
      destruct i as [bn|n q v]; simpl; [constructor|].
      destruct (Tracker.inflight s) as [b|]; [|constructor].
      specialize (Hb b eq_refl).
      destruct (n =? Tracker.batchNo s)%nat; [|constructor].
      destruct (Tracker.slot b q); [constructor|].
      destruct (Tracker.combine (Tracker.fill b q v)) as [bl|] eqn:Ec; [|constructor].
      constructor; [|constructor]. simpl.
      apply combine_block in Ec. rewrite fill_block in Ec. by rewrite Ec.
  - intros pre post bn Hnb. unfold BalancesRun.readings.
    rewrite run_app_snd, run_cons_snd, !length_app. simpl.
    pose proof (tracker_one_reading post
                  {| Tracker.batchNo :=
                       S (Tracker.batchNo (fst (Rx.run Tracker.step Tracker.init pre)));
                     Tracker.inflight := Some (Tracker.mkBatch bn None None None) |} Hnb) as H.
    simpl in H. lia.
Qed.

(** A block replaced before its answers are complete: block 7 gets two
    of its answers, block 8 arrives, the third answer of block 7 comes in
    and is ignored, and block 8 gets its three answers. *)
Example tracker_superseded_block_has_no_reading :
  BalancesRun.readings
    [Tracker.NewBlock 7; Tracker.Resolved 1 Tracker.QGotToken 5; Tracker.Resolved 1 Tracker.QWei 100;
     Tracker.NewBlock 8; Tracker.Resolved 1 Tracker.QHsToken 3;
     Tracker.Resolved 2 Tracker.QGotToken 5; Tracker.Resolved 2 Tracker.QHsToken 3;
     Tracker.Resolved 2 Tracker.QWei 100] =
    [format {| blockNumber := 8; wei := 100; gotToken := 5; hsToken := 3 |}].
Proof. reflexivity. Qed.

Lemma sameQuery_refl (q : Tracker.Query) : BalancesRun.sameQuery q q = true.
Proof. by destruct q. Qed.

Lemma fill_keeps_empty_slot (b : Tracker.Batch) (q q' : Tracker.Query) (v : BN.t) :
  Tracker.slot b q = None ->
  BalancesRun.sameQuery q q' = false ->
  Tracker.slot (Tracker.fill b q' v) q = None /\
  Tracker.combine (Tracker.fill b q' v) = None.
Proof.
  unfold Tracker.combine.
  destruct q, q'; simpl; intros H E; try discriminate E; rewrite ?H; split; try done;
    repeat case_match; done.
Qed.

Lemma tracker_unanswered_from (q : Tracker.Query) (ins : list Tracker.Input)
    (s : Tracker.State) :
  (forall b, Tracker.inflight s = Some b -> Tracker.slot b q = None) ->
  BalancesRun.answers q ins = false ->
  snd (Rx.run Tracker.step s ins) = [].
Proof.
  revert s. induction ins as [|i ins IH]; intros s Hs Hq; [done|].
  simpl in Hq. apply orb_false_iff in Hq as [Hi Hq].
  rewrite run_cons_snd. destruct i as [bn|n q' v].
  - simpl. apply IH; [|done]. simpl. intros b Hb. inversion Hb; subst. by destruct q.
  - assert (Hsame : snd (Rx.run Tracker.step s ins) = []) by by apply IH.
    simpl. destruct (Tracker.inflight s) as [b|] eqn:Eb; [|exact Hsame].
    destruct (n =? Tracker.batchNo s)%nat; [|exact Hsame].
    destruct (Tracker.slot b q') eqn:Es; [exact Hsame|].
    destruct (fill_keeps_empty_slot b q q' v (Hs b eq_refl) Hi) as [H1 H2].
    rewrite H2. simpl. apply IH; [|done]. simpl.
    intros b' Hb'. inversion Hb'; by subst.
Qed.

(** X10: a reading needs all three answers: in a run where one of the three
    queries (got token, hs token, wei) is never answered, the handle's balance
    stream emits its initial [undefined] and nothing else. *)
Theorem tracker_needs_all_three_answers (q : Tracker.Query) (ins : list Tracker.Input) :
  BalancesRun.answers q ins = false -> Tracker.stream ins = [None].
Proof.
  intros H. unfold Tracker.stream.
  rewrite (tracker_unanswered_from q ins Tracker.init); [done| |done].
  intros b Hb. discriminate Hb.
Qed.

(** [tracker_needs_all_three_answers] when the wei query never answers. *)
Lemma tracker_needs_all_three_answers_witness :
  let ins := [Tracker.NewBlock 7; Tracker.Resolved 1 Tracker.QGotToken 5;
              Tracker.Resolved 1 Tracker.QHsToken 5; Tracker.NewBlock 8;
              Tracker.Resolved 2 Tracker.QHsToken 6] in
  BalancesRun.answers Tracker.QWei ins = false /\ Tracker.stream ins = [None].
Proof.
  intros ins.
  assert (H : BalancesRun.answers Tracker.QWei ins = false) by reflexivity.
  split; [exact H|]. exact (tracker_needs_all_three_answers Tracker.QWei ins H).
Defined.

(** ** The merged event log, further *)
Section AggregatorRunFacts.

Context {ChainEvent Wire Decoded : Type}.
Variable deserializeAndDecode : Wire -> option Decoded.
Variable policy : Aggregator.EmitPolicy.

Local Abbreviation State := (@Aggregator.State ChainEvent Wire Decoded).
Local Abbreviation Input := (@Aggregator.Input ChainEvent Wire).
Local Abbreviation Event := (@Aggregator.Event ChainEvent Wire).
Local Abbreviation step := (Aggregator.step deserializeAndDecode policy).
Local Abbreviation run := (Aggregator.run deserializeAndDecode policy).

Lemma wrap_source (env : Aggregator.Env) (r : @Aggregator.Raw ChainEvent Wire) (e : Event) :
  Aggregator.wrap env r = Some e -> Aggregator.source e = Aggregator.feedOf r.
Proof.
  destruct r; simpl;
    [destruct (Aggregator.blockNumberNow env)|destruct (Aggregator.blockNumberNow env)|
     destruct (Aggregator.toNumber bn)]; intros H; try done; by injection H as <-.
Qed.

Lemma eventsOf_fromFeed (f : Aggregator.EventSource) (ins : list Input) :
  List.filter (fun e : Event => bool_decide (Aggregator.source e = f)) (Aggregator.eventsOf ins) =
    Aggregator.eventsOf (AggregatorRun.fromFeed f ins).
Proof.
  induction ins as [|i ins IH]; [done|].
  rewrite eventsOf_cons. rewrite List.filter_app, IH.
  destruct i as [env r| |k]; [|done..].
  unfold AggregatorRun.fromFeed at 2. cbn [List.filter]. fold (AggregatorRun.fromFeed f ins).
  unfold Aggregator.eventsOf at 1. cbn [flat_map]. rewrite app_nil_r.
  destruct (Aggregator.wrap env r) as [e|] eqn:He; unfold option_list; cbn [option_rect List.filter].
  - rewrite (wrap_source env r e He).
    destruct (bool_decide (Aggregator.feedOf r = f)); [|done].
    rewrite (eventsOf_cons (Aggregator.Arrive env r)).
    by rewrite (eventsOf_arrive env r e He).
  - destruct (bool_decide (Aggregator.feedOf r = f)); [|done].
    rewrite (eventsOf_cons (Aggregator.Arrive env r)).
    unfold Aggregator.eventsOf at 2. cbn [flat_map]. by rewrite He.
Qed.

(** X11: in a run in which every notification can be wrapped, the events
    of one source stand in the merged log in the order in which that
    source delivered them, each wrapped once and tagged with its source,
    whatever the other sources and the subscribers do in between and
    whether or not a peer message decodes. *)
Theorem log_keeps_order_per_source (ins : list Input) (f : Aggregator.EventSource) :
  Aggregator.wrapsAll ins = true ->
  List.filter (fun e : Event => bool_decide (Aggregator.source e = f))
              (Aggregator.history (Aggregator.log (run Aggregator.initAccount ins))) =
    Aggregator.eventsOf (AggregatorRun.fromFeed f ins) /\
  length (Aggregator.eventsOf (AggregatorRun.fromFeed f ins)) =
    length (AggregatorRun.fromFeed f ins).
Proof.
  intros Hall.
  destruct (run_history deserializeAndDecode policy ins Aggregator.initAccount
              (initAccount_logWired) Hall eq_refl) as [-> _].
  split; [simpl; apply eventsOf_fromFeed|].
  clear -Hall. induction ins as [|i ins IH]; [done|].
  apply wrapsAll_cons in Hall as [Hi Hall].
  destruct i as [env r| |k]; [|by apply IH..].
  unfold AggregatorRun.fromFeed. cbn [List.filter]. fold (AggregatorRun.fromFeed f ins).
  destruct (bool_decide (Aggregator.feedOf r = f)); [|by apply IH].
  destruct (wraps_Some env r Hi) as [e He].
  rewrite eventsOf_cons, (eventsOf_arrive env r e He). simpl. by rewrite IH.
Qed.

(** What every subscriber was told is a prefix of the log. *)
Local Abbreviation toldPrefixes :=
  (fun s : State =>
     Forall (fun o => Forall (fun n => n `prefix_of` Aggregator.history (Aggregator.log s))
                             (Aggregator.received o))
            (Aggregator.observers (Aggregator.log s))).

Lemma step_toldPrefixes (s : State) (i : Input) :
  Aggregator.logWired s ->
  Aggregator.wraps i = true ->
  Aggregator.replay (Aggregator.log s) =
    Aggregator.replayOf (Aggregator.history (Aggregator.log s)) ->
  toldPrefixes s -> toldPrefixes (step s i).
Proof.
  intros Hw Hi Hrep Hall. destruct i as [env r| |k].
  - destruct (wraps_Some env r Hi) as [e He].
    destruct (arrive_log deserializeAndDecode policy s env r e Hw He) as (Hl & _).
    cbv beta. rewrite Hl. simpl. apply Forall_fmap.
    eapply Forall_impl; [exact Hall|]. intros o Ho. simpl.
    unfold Aggregator.notify. destruct (Aggregator.attached o); simpl.
    + apply Forall_app. split.
      * eapply Forall_impl; [exact Ho|]. intros n Hn. by apply prefix_app_r.
      * by constructor.
    + eapply Forall_impl; [exact Ho|]. intros n Hn. by apply prefix_app_r.
  - cbv beta. simpl. unfold Aggregator.subscribeEvents. simpl.
    apply Forall_app. split; [exact Hall|].
    constructor; [|constructor]. simpl. rewrite Hrep.
    destruct (Aggregator.history (Aggregator.log s)); by repeat constructor.
  - cbv beta. simpl. unfold alter, list_alter. clear Hi.
    revert k. induction Hall as [|o os Ho Hos IH]; intros k; [by destruct k|].
    destruct k as [|k]; simpl; constructor; auto.
Qed.

Lemma run_toldPrefixes (ins : list Input) (s : State) :
  Aggregator.logWired s ->
  Aggregator.wrapsAll ins = true ->
  Aggregator.replay (Aggregator.log s) =
    Aggregator.replayOf (Aggregator.history (Aggregator.log s)) ->
  toldPrefixes s -> toldPrefixes (run s ins).
Proof.
  revert s. induction ins as [|i ins IH]; intros s Hw Hins Hrep Hall; [done|].
  apply wrapsAll_cons in Hins as [Hi Hins].
  simpl Aggregator.run. apply IH.
  - by apply step_logWired.
  - done.
  - destruct (run_history deserializeAndDecode policy [i] s Hw) as [_ H]; [|done|exact H].
    unfold Aggregator.wrapsAll. simpl. by rewrite Hi.
  - by apply step_toldPrefixes.
Qed.

(** X12: in a run in which every notification can be wrapped, every array
    any subscriber was ever handed is a prefix of the log as it stands: a
    subscriber never sees an event the log does not hold, nor events in
    another order. *)
Theorem subscribers_see_prefixes_of_log (ins : list Input) :
  Aggregator.wrapsAll ins = true ->
  let s := run Aggregator.initAccount ins in
  Forall (fun o => Forall (fun n => n `prefix_of` Aggregator.history (Aggregator.log s))
                          (Aggregator.received o))
         (Aggregator.observers (Aggregator.log s)).
Proof.
  intros Hall.
  apply (run_toldPrefixes ins Aggregator.initAccount); [apply initAccount_logWired|done|done|].
  by repeat constructor.
Qed.

(** A subscriber that has left is touched by no callback, whether the
    callback returns or throws. *)
Lemma handler_keeps_detached (env : Aggregator.Env) (r : Aggregator.Raw)
    (role : Aggregator.Role) (s : State) (k : nat) (o : Aggregator.Observer) :
  Aggregator.observers (Aggregator.log s) !! k = Some o ->
  Aggregator.attached o = false ->
  Aggregator.observers
    (Aggregator.log (fst (Aggregator.handler deserializeAndDecode env r role s))) !! k = Some o.
Proof.
  intros Hk Ha. destruct role.
  - unfold Aggregator.handler.
    assert (Hkeep : forall t : State * bool,
              t = match Aggregator.wrap env r with
                  | Some e =>
                      ({| Aggregator.log := Aggregator.logNext e (Aggregator.log s);
                          Aggregator.registry := Aggregator.registry s;
                          Aggregator.engine := Aggregator.engine s;
                          Aggregator.console := Aggregator.console s;
                          Aggregator.escaped := Aggregator.escaped s |}, true)
                  | None => (Aggregator.failEvents s,
                             negb (existsb Aggregator.attached
                                     (Aggregator.observers (Aggregator.log s))))
                  end ->
              Aggregator.observers (Aggregator.log (fst t)) !! k = Some o).
    { intros t ->. destruct (Aggregator.wrap env r) as [e|]; simpl.
      - rewrite list_lookup_fmap, Hk. simpl. unfold Aggregator.notify. by rewrite Ha.
      - rewrite list_lookup_fmap, Hk. simpl. f_equal. destruct o; simpl in *. by subst. }
    apply Hkeep. by destruct r.
  - destruct r as [c|m|bn]; simpl; [done| |done].
    by destruct (deserializeAndDecode m).
  - destruct r as [c|m|bn]; simpl; [done| |done].
    by destruct (deserializeAndDecode m).
Qed.

Lemma emit_keeps_detached (p : Aggregator.EmitPolicy) (env : Aggregator.Env)
    (r : Aggregator.Raw) (roles : list Aggregator.Role) (s : State)
    (k : nat) (o : Aggregator.Observer) :
  Aggregator.observers (Aggregator.log s) !! k = Some o ->
  Aggregator.attached o = false ->
  Aggregator.observers
    (Aggregator.log (Aggregator.emit deserializeAndDecode p env r roles s)) !! k = Some o.
Proof.
  revert s. induction roles as [|role roles IH]; intros s Hk Ha; [done|].
  pose proof (handler_keeps_detached env r role s k o Hk Ha) as Hh.
  cbn [Aggregator.emit].
  destruct (Aggregator.handler deserializeAndDecode env r role s) as [s' ok].
  simpl in Hh. destruct ok; [by apply IH|].
  assert (Hc : Aggregator.observers
                 (Aggregator.log (Aggregator.onCallbackError r s')) !! k = Some o)
    by by destruct r.
  destruct p; [by apply IH|done|done].
Qed.

Lemma detached_stays (post : list Input) (s : State) (k : nat) (o : Aggregator.Observer) :
  Aggregator.observers (Aggregator.log s) !! k = Some o ->
  Aggregator.attached o = false ->
  Aggregator.observers (Aggregator.log (run s post)) !! k = Some o.
Proof.
  revert s. induction post as [|i post IH]; intros s Hk Ha; [done|].
  simpl Aggregator.run. apply IH; [|done].
  destruct i as [env r| |j].
  - by apply emit_keeps_detached.
  - simpl. unfold Aggregator.subscribeEvents. simpl. by apply lookup_app_l_Some.
  - simpl. destruct (decide (j = k)) as [->|Hne].
    + rewrite list_lookup_alter_eq, Hk. simpl. f_equal. destruct o; simpl in *. by subst.
    + by rewrite list_lookup_alter_ne.
Qed.

(** X13: a subscriber that has unsubscribed is handed nothing more: what it
    had received when it left is what it has received after any further
    events and subscriptions. *)
Theorem unsubscribed_receives_nothing_more
    (pre post : list Input) (k : nat) (o : Aggregator.Observer) :
  Aggregator.observers (Aggregator.log (run Aggregator.initAccount pre)) !! k = Some o ->
  Aggregator.observers
    (Aggregator.log (run Aggregator.initAccount (pre ++ Aggregator.Detach k :: post))) !! k =
    Some {| Aggregator.attached := false; Aggregator.received := Aggregator.received o |}.
Proof.
  intros Hk. rewrite run_app_state. simpl Aggregator.run.
  apply detached_stays; [|done].
  simpl. by rewrite list_lookup_alter_eq, Hk.
Qed.

End AggregatorRunFacts.

(** [log_keeps_order_per_source] for the block-number feed, with a peer
    message in between. *)
Lemma log_keeps_order_per_source_witness :
  let b7 : @Aggregator.Input string string :=
    Aggregator.Arrive {| Aggregator.now := 10; Aggregator.blockNow := Some 7 |}
                      (Aggregator.RawBlock 7) in
  let hi := Aggregator.Arrive {| Aggregator.now := 11; Aggregator.blockNow := Some 7 |}
                              (Aggregator.RawMessage "garbage") in
  let b8 := Aggregator.Arrive {| Aggregator.now := 12; Aggregator.blockNow := Some 8 |}
                              (Aggregator.RawBlock 8) in
  Aggregator.wrapsAll [b7; hi; b8] = true /\
  List.filter (fun e => bool_decide (Aggregator.source e = Aggregator.BlockNumber))
    (Aggregator.history
       (Aggregator.log (Aggregator.run Aggregator.sampleDecode Aggregator.AbortEmit
                          Aggregator.initAccount [b7; hi; b8]))) =
    Aggregator.eventsOf [b7; b8].
Proof.
  intros b7 hi b8. split; [reflexivity|].
  exact (proj1 (log_keeps_order_per_source Aggregator.sampleDecode Aggregator.AbortEmit
                  [b7; hi; b8] Aggregator.BlockNumber eq_refl)).
Defined.

(** [subscribers_see_prefixes_of_log] for a consumer that heard the first
    of two events. *)
Lemma subscribers_see_prefixes_of_log_witness :
  let b7 : @Aggregator.Input string string :=
    Aggregator.Arrive {| Aggregator.now := 10; Aggregator.blockNow := Some 7 |}
                      (Aggregator.RawBlock 7) in
  let b8 := Aggregator.Arrive {| Aggregator.now := 12; Aggregator.blockNow := Some 8 |}
                              (Aggregator.RawBlock 8) in
  let ins := [Aggregator.Attach; b7; Aggregator.Detach 1; b8] in
  let s := Aggregator.run Aggregator.sampleDecode Aggregator.IsolateEach
             Aggregator.initAccount ins in
  Aggregator.wrapsAll ins = true /\
  Forall (fun o => Forall (fun n => n `prefix_of` Aggregator.history (Aggregator.log s))
                          (Aggregator.received o))
         (Aggregator.observers (Aggregator.log s)).
Proof.
  intros b7 b8 ins s. split; [reflexivity|].
  exact (subscribers_see_prefixes_of_log (ChainEvent := string) Aggregator.sampleDecode
           Aggregator.IsolateEach ins eq_refl).
Defined.

(** [unsubscribed_receives_nothing_more] for a subscriber that heard one
    event and missed the next. *)
Lemma unsubscribed_receives_nothing_more_witness :
  let e1 := Aggregator.Arrive {| Aggregator.now := 10; Aggregator.blockNow := Some 7 |}
                              (Aggregator.RawBlock 7) in
  let e2 := Aggregator.Arrive {| Aggregator.now := 12; Aggregator.blockNow := Some 7 |}
                              (Aggregator.RawChain "Deposit") in
  let pre : list (@Aggregator.Input string string) := [Aggregator.Attach; e1] in
  let post : list (@Aggregator.Input string string) := [e2; Aggregator.Attach] in
  let o := {| Aggregator.attached := true;
              Aggregator.received := [Aggregator.eventsOf [e1]] |} in
  Aggregator.observers
    (Aggregator.log (Aggregator.run Aggregator.sampleDecode Aggregator.IsolateEach
                       Aggregator.initAccount pre)) !! 1%nat = Some o /\
  Aggregator.observers
    (Aggregator.log (Aggregator.run Aggregator.sampleDecode Aggregator.IsolateEach
                       Aggregator.initAccount (pre ++ Aggregator.Detach 1 :: post))) !! 1%nat =
    Some {| Aggregator.attached := false;
            Aggregator.received := [Aggregator.eventsOf [e1]] |}.
Proof.
  intros e1 e2 pre post o.
  assert (H : Aggregator.observers
    (Aggregator.log (Aggregator.run Aggregator.sampleDecode Aggregator.IsolateEach
                       Aggregator.initAccount pre)) !! 1%nat = Some o) by reflexivity.
  split; [exact H|].
  exact (unsubscribed_receives_nothing_more Aggregator.sampleDecode Aggregator.IsolateEach
           pre post 1 o H).
Defined.

(** ** The readiness gate, further *)

Ltac ready_unfold :=
  unfold Ready.next1, Ready.next2, Ready.next3, Ready.checkIterators,
    Ready.complete1, Ready.complete2, Ready.complete3, Ready.fail, Ready.close.

Lemma closed_step (s : Ready.State) (i : Ready.Input) :
  Ready.closed (Ready.zip s) = true ->
  Ready.closed (Ready.zip (fst (Ready.step s i))) = true /\ snd (Ready.step s i) = [].
Proof.
  destruct s as [[l1 l2 l3 f1 f2 f3 c] t s2 s3]; simpl. intros ->.
  destruct i as [status|bn| |w|]; simpl; ready_unfold; simpl;
    repeat (case_match; simpl in * ); by split.
Qed.

Lemma closed_silent (ins : list Ready.Input) (s : Ready.State) :
  Ready.closed (Ready.zip s) = true -> snd (Rx.run Ready.step s ins) = [].
Proof.
  revert s. induction ins as [|i ins IH]; intros s Hc; [done|].
  rewrite run_cons_snd. destruct (closed_step s i Hc) as [Hc' ->].
  simpl. by apply IH.
Qed.

Lemma idle_step (s : Ready.State) (i : Ready.Input) :
  ReadyRun.idle s ->
  ReadyRun.idle (fst (Ready.step s i)) /\
  (length (snd (Ready.step s i)) <= 1)%nat /\
  (snd (Ready.step s i) <> [] -> Ready.closed (Ready.zip (fst (Ready.step s i))) = true).
Proof.
  destruct s as [[l1 l2 l3 f1 f2 f3 c] t s2 s3].
  unfold ReadyRun.idle; simpl. intros (H1 & H2 & H3).
  destruct t, s2, s3; simpl in *;
    repeat match goal with
           | H : false = false -> _ |- _ => specialize (H eq_refl); subst
           end;
    destruct i as [status|bn| |w|]; simpl; ready_unfold; simpl;
    repeat (case_match; simpl in * ); simplify_eq; simpl in *;
    repeat split; intros; try done; try lia; auto;
    rewrite ?orb_true_r; try done.
Qed.

Lemma idle_run (ins : list Ready.Input) (s : Ready.State) :
  ReadyRun.idle s -> (length (snd (Rx.run Ready.step s ins)) <= 1)%nat.
Proof.
  revert s. induction ins as [|i ins IH]; intros s H; [simpl; lia|].
  rewrite run_cons_snd, length_app.
  destruct (idle_step s i H) as (H' & Hlen & Hclosed).
  destruct (snd (Ready.step s i)) as [|h out] eqn:E.
  - simpl. by apply IH.
  - rewrite closed_silent by (by apply Hclosed). simpl in *. lia.
Qed.

(** X14: the observable [initAccount] returns emits the handle at most
    once, whatever statuses the transport reports, however often, and
    however the two fetches settle. *)
Theorem handle_resolves_at_most_once (ins : list Ready.Input) :
  (length (Ready.resolved ins) <= 1)%nat.
Proof. apply idle_run. by repeat split. Qed.

Lemma waiting_step (s : Ready.State) (i : Ready.Input) (c1 c2 c3 : bool) :
  ReadyRun.waiting s c1 c2 c3 ->
  ReadyRun.isRejection i = false ->
  let d1 := c1 || Ready.isConnected i in
  let d2 := c2 || Ready.isBlockNumber i in
  let d3 := c3 || Ready.isBalance i in
  if d1 && d2 && d3
  then snd (Ready.step s i) = [Ready.Handle] /\
       Ready.closed (Ready.zip (fst (Ready.step s i))) = true
  else snd (Ready.step s i) = [] /\ ReadyRun.waiting (fst (Ready.step s i)) d1 d2 d3.
Proof.
  destruct s as [[l1 l2 l3 f1 f2 f3 c] t s2 s3].
  unfold ReadyRun.waiting; simpl.
  intros (-> & Hq1 & Hq2 & Hq3 & -> & -> & -> & -> & -> & -> & Hnot) Hrej.
  destruct i as [status|bn| |w|]; try discriminate Hrej; simpl.
  - destruct (String.eqb status "connected"); simpl.
    + destruct c1, c2, c3; try discriminate Hnot; simpl in *;
        destruct l1, l2, l3; try discriminate; simpl; ready_unfold; simpl;
        repeat split; try done; by repeat case_match.
    + rewrite !orb_false_r. rewrite Hnot. by repeat split.
  - destruct c1, c2, c3; try discriminate Hnot; simpl in *;
      destruct l1, l2, l3; try discriminate; simpl; ready_unfold; simpl;
      repeat split; try done; by repeat case_match.
  - destruct c1, c2, c3; try discriminate Hnot; simpl in *;
      destruct l1, l2, l3; try discriminate; simpl; ready_unfold; simpl;
      repeat split; try done; by repeat case_match.
Qed.

Lemma waiting_run (ins : list Ready.Input) (s : Ready.State) (c1 c2 c3 : bool) :
  ReadyRun.waiting s c1 c2 c3 ->
  existsb ReadyRun.isRejection ins = false ->
  snd (Rx.run Ready.step s ins) =
    if (c1 || existsb Ready.isConnected ins) &&
       (c2 || existsb Ready.isBlockNumber ins) &&
       (c3 || existsb Ready.isBalance ins)
    then [Ready.Handle] else [].
Proof.
  revert s c1 c2 c3. induction ins as [|i ins IH]; intros s c1 c2 c3 Hw Hrej.
  - simpl. rewrite !orb_false_r.
    destruct Hw as (_ & _ & _ & _ & _ & _ & _ & _ & _ & _ & ->). done.
  - simpl in Hrej. apply orb_false_iff in Hrej as [Hi Hrej].
    rewrite run_cons_snd. simpl existsb. rewrite !orb_assoc.
    pose proof (waiting_step s i c1 c2 c3 Hw Hi) as Hstep. simpl in Hstep.
    destruct ((c1 || Ready.isConnected i) && (c2 || Ready.isBlockNumber i) &&
              (c3 || Ready.isBalance i)) eqn:E.
    + destruct Hstep as [-> Hc]. rewrite closed_silent by done.
      apply andb_prop in E as [E E3]. apply andb_prop in E as [E1 E2].
      by rewrite E1, E2, E3.
    + destruct Hstep as [-> Hw']. simpl. by apply IH.
Qed.

(** X15: when neither fetch fails, the handle is emitted exactly once if the
    run holds a 'connected' status, a block number and a balance, in
    whatever order and however many other statuses come in between, and not
    at all otherwise. *)
Theorem handle_resolves_once_all_three_arrive (ins : list Ready.Input) :
  existsb ReadyRun.isRejection ins = false ->
  Ready.resolved ins =
    if existsb Ready.isConnected ins && existsb Ready.isBlockNumber ins &&
       existsb Ready.isBalance ins
    then [Ready.Handle] else [].
Proof.
  intros H. apply (waiting_run ins Ready.init false false false); [|done].
  by repeat split.
Qed.

(** [handle_resolves_once_all_three_arrive] on a run with repeated
    statuses. *)
Lemma handle_resolves_once_all_three_arrive_witness :
  let ins := [Ready.StatusChanged "connecting"; Ready.BlockNumberResolved 9;
              Ready.StatusChanged "connected"; Ready.StatusChanged "connected";
              Ready.BalanceResolved 5; Ready.StatusChanged "disconnected"] in
  existsb ReadyRun.isRejection ins = false /\ Ready.resolved ins = [Ready.Handle].
Proof.
  intros ins.
  assert (H : existsb ReadyRun.isRejection ins = false) by reflexivity.
  split; [exact H|]. exact (handle_resolves_once_all_three_arrive ins H).
Defined.

Lemma settled_step (s : Ready.State) (i : Ready.Input) :
  Ready.settled2 (fst (Ready.step s i)) = Ready.settled2 s || ReadyRun.settlesBlockNumber i /\
  Ready.settled3 (fst (Ready.step s i)) = Ready.settled3 s || ReadyRun.settlesBalance i.
Proof.
  destruct s as [z t s2 s3].
  destruct i as [status|bn| |w|]; simpl; repeat (case_match; simpl in * );
    simplify_eq; rewrite ?orb_false_r, ?orb_true_r; by split.
Qed.

Lemma settled_run (ins : list Ready.Input) (s : Ready.State) :
  Ready.settled2 (fst (Rx.run Ready.step s ins)) =
    Ready.settled2 s || existsb ReadyRun.settlesBlockNumber ins /\
  Ready.settled3 (fst (Rx.run Ready.step s ins)) =
    Ready.settled3 s || existsb ReadyRun.settlesBalance ins.
Proof.
  revert s. induction ins as [|i ins IH]; intros s.
  - simpl. by rewrite !orb_false_r.
  - rewrite run_cons_fst. destruct (IH (fst (Ready.step s i))) as [-> ->].
    destruct (settled_step s i) as [-> ->]. simpl. by rewrite !orb_assoc.
Qed.

Lemma existsb_weaken {X : Type} (f g : X -> bool) (l : list X) :
  (forall x, f x = true -> g x = true) -> existsb g l = false -> existsb f l = false.
Proof.
  intros H Hg. destruct (existsb f l) eqn:E; [|done].
  apply existsb_exists in E as (x & Hx & Hf).
  assert (existsb g l = true) by (apply existsb_exists; eauto). congruence.
Qed.

(** X16: a fetch that fails before it ever succeeded is final: if the first
    settlement of the block number fetch, or of the balance fetch, is a
    rejection, the handle is never emitted, whatever follows. *)
Theorem handle_never_resolves_after_failed_fetch (pre post : list Ready.Input) :
  (existsb ReadyRun.settlesBlockNumber pre = false ->
   Ready.resolved (pre ++ Ready.BlockNumberRejected :: post) = []) /\
  (existsb ReadyRun.settlesBalance pre = false ->
   Ready.resolved (pre ++ Ready.BalanceRejected :: post) = []).
Proof.
  assert (Hinit : Ready.accounted Ready.init false false false)
    by (unfold Ready.accounted; simpl; by split_and!).
  split; intros Hpre; unfold Ready.resolved; rewrite run_app_snd.
  - assert (Hq : snd (Rx.run Ready.step Ready.init pre) = []).
    { destruct (snd (Rx.run Ready.step Ready.init pre)) as [|h out] eqn:E; [done|].
      destruct (ready_run pre Ready.init false false false Hinit) as (_ & H2 & _);
        [by rewrite E|].
      simpl in H2.
      rewrite (existsb_weaken Ready.isBlockNumber ReadyRun.settlesBlockNumber) in H2;
        [done| |done].
      by intros [ ]. }
    rewrite Hq, app_nil_l, run_cons_snd.
    destruct (settled_run pre Ready.init) as [Hs _]. rewrite Hpre in Hs. simpl in Hs.
    set (s := fst (Rx.run Ready.step Ready.init pre)) in *.
    assert (Hstep : snd (Ready.step s Ready.BlockNumberRejected) = [] /\
                    Ready.closed (Ready.zip (fst (Ready.step s Ready.BlockNumberRejected))) = true).
    { simpl. rewrite Hs. by split. }
    destruct Hstep as [-> Hc]. simpl. by apply closed_silent.
  - assert (Hq : snd (Rx.run Ready.step Ready.init pre) = []).
    { destruct (snd (Rx.run Ready.step Ready.init pre)) as [|h out] eqn:E; [done|].
      destruct (ready_run pre Ready.init false false false Hinit) as (_ & _ & H3);
        [by rewrite E|].
      simpl in H3.
      rewrite (existsb_weaken Ready.isBalance ReadyRun.settlesBalance) in H3;
        [done| |done].
      by intros [ ]. }
    rewrite Hq, app_nil_l, run_cons_snd.
    destruct (settled_run pre Ready.init) as [_ Hs]. rewrite Hpre in Hs. simpl in Hs.
    set (s := fst (Rx.run Ready.step Ready.init pre)) in *.
    assert (Hstep : snd (Ready.step s Ready.BalanceRejected) = [] /\
                    Ready.closed (Ready.zip (fst (Ready.step s Ready.BalanceRejected))) = true).
    { simpl. rewrite Hs. by split. }
    destruct Hstep as [-> Hc]. simpl. by apply closed_silent.
Qed.

(** [handle_never_resolves_after_failed_fetch] when the block number
    fetch fails after the transport has connected. *)
Lemma handle_never_resolves_after_failed_fetch_witness :
  let pre := [Ready.StatusChanged "connected"; Ready.BalanceResolved 5] in
  let post := [Ready.BlockNumberResolved 9; Ready.StatusChanged "connected"] in
  existsb ReadyRun.settlesBlockNumber pre = false /\
  Ready.resolved (pre ++ Ready.BlockNumberRejected :: post) = [].
Proof.
  intros pre post.
  assert (H : existsb ReadyRun.settlesBlockNumber pre = false) by reflexivity.
  split; [exact H|].
  exact (proj1 (handle_never_resolves_after_failed_fetch pre post) H).
Defined.

(** ** The session manager, further *)
Section SessionRunFacts.

Variable privateToAddress : string -> option string.

Local Abbreviation toAccount := (Session.toAccount privateToAddress).
Local Abbreviation chosen := (Session.chosen privateToAddress).
Local Abbreviation step := (Session.step privateToAddress).
Local Abbreviation ends := (Session.ends privateToAddress).
Local Abbreviation run := (Session.run privateToAddress).
Local Abbreviation ended := (Session.ended privateToAddress).

(** The collected buffer is the list of initialized accounts and every
    published list is a prefix of it. *)
Local Abbreviation publishedWithin :=
  (fun s : Session.State =>
     Session.buffer s = Session.inited s /\
     Forall (fun l => l `prefix_of` Session.inited s) (Session.published s)).

(** With nothing pending the last published list is all of it. *)
Local Abbreviation publishedAll :=
  (fun s : Session.State =>
     Session.pending s = [] ->
     Session.published s = [] \/ last (Session.published s) = Some (Session.inited s)).

Lemma isNil_true {X : Type} (l : list X) : Ready.isNil l = true <-> l = [].
Proof. by destruct l. Qed.

Lemma step_publishedWithin (s : Session.State) (i : Session.Input) :
  publishedWithin s -> publishedWithin (step s i).
Proof.
  intros (Hb & Hp). destruct i as [cfg|k|k]; simpl.
  - destruct (chosen s cfg) as [fresh|]; [|done]. simpl.
    destruct (Ready.isNil _); simpl; [|done].
    split; [done|]. apply Forall_app. split; [done|]. by repeat constructor.
  - destruct (Session.pending s !! k) as [a|] eqn:Ek; simpl; [|done].
    assert (Hgrow : Forall (fun l => l `prefix_of` Session.inited s ++ [a]) (Session.published s)).
    { eapply Forall_impl; [exact Hp|]. intros l Hl'. by apply prefix_app_r. }
    destruct (Ready.isNil (delete k (Session.pending s))); simpl.
    + split; [by rewrite Hb|].
      apply Forall_app. split; [done|]. rewrite Hb. by repeat constructor.
    + split; [by rewrite Hb|done].
  - by destruct (Session.pending s !! k).
Qed.

Lemma step_publishedAll (s : Session.State) (i : Session.Input) :
  ends s i = false ->
  Session.buffer s = Session.inited s ->
  publishedAll s -> publishedAll (step s i).
Proof.
  intros Hgo Hb Hl. destruct i as [cfg|k|k]; simpl in *.
  - destruct (chosen s cfg) as [fresh|]; [|done]. simpl.
    destruct (Ready.isNil _) eqn:E; simpl.
    + intros _. right. by rewrite last_snoc.
    + intros H. rewrite H in E. discriminate E.
  - destruct (Session.pending s !! k) as [a|] eqn:Ek; simpl; [|done].
    destruct (Ready.isNil (delete k (Session.pending s))) eqn:E; simpl.
    + intros _. right. by rewrite last_snoc, Hb.
    + intros H. rewrite H in E. discriminate E.
  - by destruct (Session.pending s !! k).
Qed.

Lemma run_published (ins : list Session.Input) (s : Session.State) :
  publishedWithin s -> publishedAll s ->
  publishedWithin (run s ins) /\ (ended s ins = false -> publishedAll (run s ins)).
Proof.
  revert s. induction ins as [|i ins IH]; intros s Hw Ha; [done|].
  rewrite session_run_cons, session_ended_cons.
  destruct (ends s i) eqn:E.
  - split; [by apply step_publishedWithin|done].
  - apply IH; [by apply step_publishedWithin|].
    apply step_publishedAll; [done|by destruct Hw|done].
Qed.

(** X17: after any run of the session manager, also one that a malformed
    key or a failed initialization has ended, every list of account handles
    it has published is a prefix of the list of initialized accounts (old
    accounts first, newly added ones after, nothing dropped or reordered);
    and while the manager has not ended, whenever nothing is pending the
    last published list is the whole list. *)
Theorem published_lists_are_the_initialized_accounts (ins : list Session.Input) :
  let s := run Session.init ins in
  Session.buffer s = Session.inited s /\
  Forall (fun l => l `prefix_of` Session.inited s) (Session.published s) /\
  (ended Session.init ins = false ->
   Session.pending s = [] ->
   Session.published s = [] \/ last (Session.published s) = Some (Session.inited s)).
Proof.
  destruct (run_published ins Session.init) as [[H1 H2] H3].
  - split; [done|constructor].
  - by left.
  - by split_and!.
Qed.

Lemma handles_serial (n : nat) (l : list Session.AccountBase) :
  map Session.serial (Session.handles n l) = seq n (length l).
Proof. revert n. induction l as [|b l IH]; intros n; simpl; [done|]. by rewrite IH. Qed.

Lemma handles_backed (n : nat) (l pre : list Session.AccountBase) (a : Session.Account) :
  length pre = n ->
  a ∈ Session.handles n l ->
  (pre ++ l) !! Session.serial a = Some (Session.owner a) /\ (n <= Session.serial a)%nat.
Proof.
  revert n pre. induction l as [|b l IH]; intros n pre Hn Ha; simpl in Ha.
  - by apply elem_of_nil in Ha.
  - apply elem_of_cons in Ha as [->|Ha]; simpl.
    + split; [|lia]. subst n. by rewrite list_lookup_middle.
    + destruct (IH (S n) (pre ++ [b])) as [H1 H2].
      * rewrite length_app. simpl. lia.
      * done.
      * rewrite <- app_assoc in H1. simpl in H1. split; [done|lia].
Qed.

Lemma resolve_permutation (s : Session.State) (k : nat) (a : Session.Account) :
  Session.pending s !! k = Some a ->
  (Session.inited s ++ [a]) ++ delete k (Session.pending s) ≡ₚ
    Session.inited s ++ Session.pending s.
Proof.
  intros Ek. rewrite <- app_assoc. simpl. apply Permutation_app_head.
  symmetry. by apply delete_Permutation.
Qed.

Lemma abandon_backed (s : Session.State) :
  SessionRun.backed s -> SessionRun.backed (Session.abandon s).
Proof.
  intros [Hcalls Hnd]. split; simpl.
  - intros a Ha. rewrite app_nil_r in Ha. apply Hcalls. apply elem_of_app. by left.
  - rewrite app_nil_r. rewrite map_app in Hnd. by apply NoDup_app in Hnd as (Hnd1 & _ & _).
Qed.

Lemma step_backed (s : Session.State) (i : Session.Input) :
  SessionRun.backed s -> SessionRun.backed (step s i).
Proof.
  intros Hb. pose proof Hb as [Hcalls Hnd]. destruct i as [cfg|k|k]; simpl.
  - destruct (chosen s cfg) as [fresh|]; [|by apply abandon_backed].
    rewrite map_app in Hnd. apply NoDup_app in Hnd as (Hnd1 & _ & _).
    split; simpl.
    + intros a Ha. apply elem_of_app in Ha as [Ha|Ha].
      * apply lookup_app_l_Some. apply Hcalls. apply elem_of_app. by left.
      * by apply (handles_backed (length (Session.initCalls s)) fresh).
    + rewrite map_app, handles_serial. apply NoDup_app. split_and!; [done| |apply NoDup_seq].
      intros x Hx Hseq. apply list_elem_of_fmap in Hx as (a & -> & Ha).
      assert (Hlt : (Session.serial a < length (Session.initCalls s))%nat).
      { eapply lookup_lt_Some. apply Hcalls. apply elem_of_app. by left. }
      apply list_elem_of_In, in_seq in Hseq. lia.
  - destruct (Session.pending s !! k) as [a|] eqn:Ek; [|done].
    pose proof (resolve_permutation s k a Ek) as Hperm.
    split; simpl.
    + intros b Hb'. rewrite Hperm in Hb'. by apply Hcalls.
    + by rewrite Hperm.
  - destruct (Session.pending s !! k); [by apply abandon_backed|done].
Qed.

Lemma run_backed (ins : list Session.Input) (s : Session.State) :
  SessionRun.backed s -> SessionRun.backed (run s ins).
Proof.
  apply (session_run_keeps privateToAddress SessionRun.backed). apply step_backed.
Qed.

Lemma init_backed : SessionRun.backed Session.init.
Proof. split; simpl; [intros a Ha; by apply elem_of_nil in Ha|constructor]. Qed.

(** X18: every initialized account was made by the initializer call of its
    own rank, on the identity that call was given; no two initialized
    accounts come from the same call, so the list holds no handle twice, and
    there are never more initialized accounts than initializer calls. *)
Theorem initialized_accounts_come_from_calls (ins : list Session.Input) :
  let s := run Session.init ins in
  (forall a, a ∈ Session.inited s ->
     Session.initCalls s !! Session.serial a = Some (Session.owner a)) /\
  NoDup (Session.inited s) /\
  (length (Session.inited s) <= length (Session.initCalls s))%nat.
Proof.
  intros s. destruct (run_backed ins Session.init init_backed) as [Hcalls Hnd].
  fold s in Hcalls, Hnd.
  rewrite map_app in Hnd. apply NoDup_app in Hnd as (Hnd & _ & _).
  split_and!.
  - intros a Ha. apply Hcalls. apply elem_of_app. by left.
  - by apply NoDup_fmap_1 in Hnd.
  - assert (Hsub : map Session.serial (Session.inited s) ⊆+
                     seq 0 (length (Session.initCalls s))).
    { apply NoDup_submseteq; [done|].
      intros x Hx. apply list_elem_of_fmap in Hx as (a & -> & Ha).
      apply list_elem_of_In, in_seq. split; [lia|]. simpl.
      eapply lookup_lt_Some. apply Hcalls. apply elem_of_app. by left. }
    apply submseteq_length in Hsub. by rewrite length_map, length_seq in Hsub.
Qed.

(** A rank that has been given out and belongs to no handle the manager
    still knows. *)
Local Abbreviation droppedRank :=
  (fun (a : Session.Account) (s : Session.State) =>
     (Session.serial a < length (Session.initCalls s))%nat /\
     forall b, b ∈ Session.inited s ++ Session.pending s ->
       Session.serial b <> Session.serial a).

Lemma step_droppedRank (a : Session.Account) (s : Session.State) (i : Session.Input) :
  droppedRank a s -> droppedRank a (step s i).
Proof.
  intros [Hlt Hout].
  assert (Hab : droppedRank a (Session.abandon s)).
  { split; [done|]. simpl. intros b Hb. rewrite app_nil_r in Hb.
    apply Hout. apply elem_of_app. by left. }
  destruct i as [cfg|k|k]; simpl.
  - destruct (chosen s cfg) as [fresh|]; [|done]. split; simpl.
    + rewrite length_app. lia.
    + intros b Hb. apply elem_of_app in Hb as [Hb|Hb].
      * apply Hout. apply elem_of_app. by left.
      * assert (Hin : Session.serial b ∈
                   map Session.serial (Session.handles (length (Session.initCalls s)) fresh))
          by (apply list_elem_of_fmap; eauto).
        rewrite handles_serial in Hin. apply list_elem_of_In, in_seq in Hin. lia.
  - destruct (Session.pending s !! k) as [c|] eqn:Ek; [|done]. split; simpl; [done|].
    intros b Hb. rewrite (resolve_permutation s k c Ek) in Hb. by apply Hout.
  - by destruct (Session.pending s !! k).
Qed.

Lemma step_keeps_call (a : Session.Account) (s : Session.State) (i : Session.Input) :
  Session.initCalls s !! Session.serial a = Some (Session.owner a) ->
  Session.initCalls (step s i) !! Session.serial a = Some (Session.owner a).
Proof.
  intros H. destruct i as [cfg|k|k]; simpl.
  - destruct (chosen s cfg) as [fresh|]; [|done]. simpl. by apply lookup_app_l_Some.
  - by destruct (Session.pending s !! k).
  - by destruct (Session.pending s !! k).
Qed.

(** X19: an initialization still pending when the next configuration
    arrives is abandoned: its handle never joins the initialized accounts,
    whatever resolves later, although its initializer call has been made. *)
Theorem pending_at_reconfiguration_is_abandoned
    (pre post : list Session.Input) (cfg : Session.UserSession) (a : Session.Account) :
  a ∈ Session.pending (run Session.init pre) ->
  (a ∉ Session.inited (run Session.init (pre ++ Session.Config cfg :: post))) /\
  Session.initCalls (run Session.init (pre ++ Session.Config cfg :: post))
    !! Session.serial a = Some (Session.owner a).
Proof.
  intros Ha.
  destruct (run_backed pre Session.init init_backed) as [Hcalls Hnd].
  destruct (ended Session.init pre) eqn:Hend.
  { apply (ended_pending privateToAddress) in Hend. rewrite Hend in Ha.
    by apply elem_of_nil in Ha. }
  set (s := run Session.init pre) in *.
  assert (Hlook : Session.initCalls s !! Session.serial a = Some (Session.owner a))
    by (apply Hcalls; apply elem_of_app; by right).
  assert (Hlt : (Session.serial a < length (Session.initCalls s))%nat)
    by by eapply lookup_lt_Some.
  assert (Hrun : run Session.init (pre ++ Session.Config cfg :: post) =
                 run s (Session.Config cfg :: post)).
  { by rewrite (session_run_app privateToAddress), Hend. }
  rewrite Hrun.
  assert (Hdrop : droppedRank a (step s (Session.Config cfg))).
  { simpl. destruct (chosen s cfg) as [fresh|]; simpl.
    - split; simpl; [rewrite length_app; lia|].
      intros b Hb. apply elem_of_app in Hb as [Hb|Hb].
      + rewrite map_app in Hnd. apply NoDup_app in Hnd as (_ & Hdis & _).
        intros Heq. apply (Hdis (Session.serial b)).
        * apply list_elem_of_fmap. eauto.
        * rewrite Heq. apply list_elem_of_fmap. eauto.
      + assert (Hin' : Session.serial b ∈
                    map Session.serial (Session.handles (length (Session.initCalls s)) fresh))
          by (apply list_elem_of_fmap; eauto).
        rewrite handles_serial in Hin'. apply list_elem_of_In, in_seq in Hin'. lia.
    - split; simpl; [done|]. intros b Hb. rewrite app_nil_r in Hb.
      rewrite map_app in Hnd. apply NoDup_app in Hnd as (_ & Hdis & _).
      intros Heq. apply (Hdis (Session.serial b)).
      + apply list_elem_of_fmap. eauto.
      + rewrite Heq. apply list_elem_of_fmap. eauto. }
  assert (Hcall : Session.initCalls (step s (Session.Config cfg)) !! Session.serial a =
                    Some (Session.owner a)) by by apply step_keeps_call.
  rewrite (session_run_cons privateToAddress).
  destruct (ends s (Session.Config cfg)).
  - split; [|done]. intros Hin. destruct Hdrop as [_ Hout].
    apply (Hout a); [|done]. apply elem_of_app. by left.
  - split.
    + intros Hin.
      pose proof (session_run_keeps privateToAddress (droppedRank a)
                    (step_droppedRank a) post _ Hdrop) as [_ Hout].
      apply (Hout a); [|done]. apply elem_of_app. by left.
    + by apply (session_run_keeps privateToAddress
                  (fun s0 => Session.initCalls s0 !! Session.serial a = Some (Session.owner a))
                  (step_keeps_call a) post).
Qed.

(** X20: a configuration all of whose addresses belong to initialized
    accounts starts no initialization: no initializer call is made, nothing
    is pending, and the list of initialized accounts is published again as it
    is. *)
Theorem known_configuration_starts_nothing (s : Session.State) (cfg : Session.UserSession) :
  (forall a, a ∈ Session.userAccounts cfg ->
     exists i, i ∈ Session.inited s /\
               Session.addressStr (Session.owner i) = Session.address a) ->
  let s' := step s (Session.Config cfg) in
  Session.initCalls s' = Session.initCalls s /\
  Session.pending s' = [] /\
  Session.inited s' = Session.inited s /\
  Session.published s' = Session.published s ++ [Session.inited s].
Proof.
  intros Hknown s'.
  assert (Hnone : filter (Session.notInited (Session.inited s)) (Session.userAccounts cfg) = []).
  { induction (Session.userAccounts cfg) as [|a l IH]; [done|].
    rewrite filter_cons, decide_False.
    - apply IH. intros b Hb. apply Hknown. by right.
    - rewrite Is_true_true, notInited_spec. intros H.
      destruct (Hknown a) as (i & Hi & Heq); [by left|]. by apply (H i Hi). }
  subst s'. simpl. unfold Session.chosen. rewrite Hnone. simpl. by rewrite app_nil_r.
Qed.

End SessionRunFacts.

(** [pending_at_reconfiguration_is_abandoned] for an account pending when
    the configuration is sent again. *)
Lemma pending_at_reconfiguration_is_abandoned_witness :
  let derive := fun k : string => Some ("addr-" +:+ k) in
  let A := {| Session.privateKey := "0xa1"; Session.address := "addr-a1" |} in
  let cfg := {| Session.userAccounts := [A] |} in
  let a := {| Session.owner :=
                {| Session.privateKeyStr := "a1"; Session.addressStr := "addr-a1";
                   Session.addressShort := Session.shortAddress "addr-a1" |};
              Session.serial := 0 |} in
  let pre := [Session.Config cfg] in
  let post := [Session.InitResolved 0] in
  a ∈ Session.pending (Session.run derive Session.init pre) /\
  (a ∉ Session.inited (Session.run derive Session.init (pre ++ Session.Config cfg :: post))).
Proof.
  intros derive A cfg a pre post.
  assert (H : a ∈ Session.pending (Session.run derive Session.init pre))
    by (apply list_elem_of_singleton; reflexivity).
  split; [exact H|].
  exact (proj1 (pending_at_reconfiguration_is_abandoned derive pre post cfg a H)).
Defined.

(** [known_configuration_starts_nothing] when the configuration is sent
    again after its account has resolved. *)
Lemma known_configuration_starts_nothing_witness :
  let derive := fun k : string => Some ("addr-" +:+ k) in
  let A := {| Session.privateKey := "0xa1"; Session.address := "addr-a1" |} in
  let cfg := {| Session.userAccounts := [A] |} in
  let s := Session.run derive Session.init [Session.Config cfg; Session.InitResolved 0] in
  (forall a, a ∈ Session.userAccounts cfg ->
     exists i, i ∈ Session.inited s /\
               Session.addressStr (Session.owner i) = Session.address a) /\
  Session.initCalls (Session.step derive s (Session.Config cfg)) = Session.initCalls s /\
  Session.pending (Session.step derive s (Session.Config cfg)) = [].
Proof.
  intros derive A cfg s.
  assert (H : forall a, a ∈ Session.userAccounts cfg ->
     exists i, i ∈ Session.inited s /\
               Session.addressStr (Session.owner i) = Session.address a).
  { intros a Ha. apply list_elem_of_singleton in Ha as ->.
    exists {| Session.owner :=
                {| Session.privateKeyStr := "a1"; Session.addressStr := "addr-a1";
                   Session.addressShort := Session.shortAddress "addr-a1" |};
              Session.serial := 0 |}.
    split; [apply list_elem_of_singleton; reflexivity|reflexivity]. }
  split; [exact H|].
  destruct (known_configuration_starts_nothing derive s cfg H) as (H1 & H2 & _).
  split; [exact H1|exact H2].
Defined.

(** ** The channel card *)

(** X21: for a closed channel the card offers [Settle] exactly from the
    block [closedBlock + settleTimeout] on, and keeps offering it at every
    later block; before that it shows the number of blocks left, which is at
    least one. *)
Theorem settle_offered_from_timeout_on (closedBlock settleTimeout currentBlock : BN.t)
    (openLocks : nat) :
  (snd (ChannelView.closedControls closedBlock settleTimeout currentBlock openLocks) =
     ChannelView.SettleButton <-> closedBlock + settleTimeout <= currentBlock) /\
  (forall later : BN.t,
     currentBlock <= later ->
     ChannelView.canSettle closedBlock settleTimeout currentBlock = true ->
     ChannelView.canSettle closedBlock settleTimeout later = true) /\
  (currentBlock < closedBlock + settleTimeout ->
   snd (ChannelView.closedControls closedBlock settleTimeout currentBlock openLocks) =
     ChannelView.SettleCountdown
       ("Settle possible in " +:+ BN.toString (closedBlock + settleTimeout - currentBlock)) /\
   1 <= closedBlock + settleTimeout - currentBlock).
Proof.
  unfold ChannelView.closedControls, ChannelView.canSettle, ChannelView.toSettle, BN.sub.
  simpl. split_and!.
  - destruct (Z.leb_spec (closedBlock + settleTimeout - currentBlock) 0) as [H|H].
    + split; [intros _; lia|done].
    + split; [discriminate|lia].
  - intros later Hl H. apply Z.leb_le in H. apply Z.leb_le. lia.
  - intros H. rewrite (proj2 (Z.leb_gt _ _)) by lia. split; [done|lia].
Qed.

(** [settle_offered_from_timeout_on] two blocks before the timeout. *)
Lemma settle_offered_from_timeout_on_witness :
  100 + 20 <= 125 /\ 118 < 100 + 20 /\
  snd (ChannelView.closedControls 100 20 125 0) = ChannelView.SettleButton /\
  snd (ChannelView.closedControls 100 20 118 3) =
    ChannelView.SettleCountdown "Settle possible in 2".
Proof.
  assert (H1 : 100 + 20 <= 125) by lia.
  assert (H2 : 118 < 100 + 20) by lia.
  split; [exact H1|]. split; [exact H2|]. split.
  - exact (proj2 (proj1 (settle_offered_from_timeout_on 100 20 125 0)) H1).
  - exact (proj1 (proj2 (proj2 (settle_offered_from_timeout_on 100 20 118 3)) H2)).
Defined.
